(** * quantity-math-js: dimensions, unit table, unit-string parser and formatter

    A shallow embedding of [src/dimensions.ts] and [src/units.ts], and of
    the conversion engine as the specification describes it.

    Conventions of the embedding:
    - a JavaScript string is the list of its UTF-16 code units ([list N]);
    - integer-valued numbers (dimension exponents, unit powers) are [Z],
      real-valued numbers (scales, offsets, magnitudes) are exact
      rationals [Q]; a number read from a string by [Number] is rounded
      to binary64 as the language prescribes, arithmetic on magnitudes
      is exact;
    - a function that throws returns [Err e], one constructor of
      [QuantityError] per [throw] site of the source. *)

From Stdlib Require Import Decimal DecimalPos.
From Stdlib Require Import Bool Ascii String ZArith NArith QArith Qpower Qabs.
From Stdlib Require Import Lia Permutation Sorted List.
Import ListNotations.

Close Scope Q_scope.
Set Implicit Arguments.

(* ================================================================= *)
(** ** JavaScript strings and the built-ins the sources call *)

Module JS.

Definition jsstring := list N.

(** ASCII literals of the source, as code units. *)
Definition js (s : string) : jsstring :=
  map N_of_ascii (list_ascii_of_string s).

(** Code units the sources name: U+22C5 DOT OPERATOR (the unit
    separator), and a few ASCII ones. *)
Definition DOT : N := 8901%N.
Definition SLASH : N := 47%N.
Definition CARET : N := 94%N.
Definition UNDERSCORE : N := 95%N.

Fixpoint str_eqb (a b : jsstring) : bool :=
  match a, b with
  | [], [] => true
  | x :: a', y :: b' => N.eqb x y && str_eqb a' b'
  | _, _ => false
  end.

(** [a < b] on strings: lexicographic on code units. *)
Fixpoint str_ltb (a b : jsstring) : bool :=
  match a, b with
  | _, [] => false
  | [], _ :: _ => true
  | x :: a', y :: b' =>
      if N.ltb x y then true
      else if N.eqb x y then str_ltb a' b' else false
  end.

(** WhiteSpace and LineTerminator code units: what [\s] matches and
    what [trim] and [Number] strip. *)
Definition isWhiteSpace (c : N) : bool :=
  ((9 <=? c) && (c <=? 13) || (c =? 32) || (c =? 160) || (c =? 5760)
   || (8192 <=? c) && (c <=? 8202) || (c =? 8232) || (c =? 8233)
   || (c =? 8239) || (c =? 8287) || (c =? 12288) || (c =? 65279))%N.

Fixpoint trimStart (s : jsstring) : jsstring :=
  match s with
  | c :: r => if isWhiteSpace c then trimStart r else s
  | [] => []
  end.

Definition trim (s : jsstring) : jsstring :=
  rev (trimStart (rev (trimStart s))).

(** [s.indexOf(c)] for a one-unit needle: the first position, or -1. *)
Fixpoint indexOf (s : jsstring) (c : N) : Z :=
  match s with
  | [] => -1
  | x :: r =>
      if N.eqb x c then 0
      else let i := indexOf r c in if (i <? 0)%Z then -1 else (i + 1)%Z
  end.

(** [s.substring(start, end)]: both ends clamped to [0, length], and
    swapped when out of order. *)
Definition clamp (len : nat) (i : Z) : nat :=
  Nat.min (Z.to_nat i) len.

Definition substring (s : jsstring) (start end_ : Z) : jsstring :=
  let a := clamp (length s) start in
  let b := clamp (length s) end_ in
  firstn (Nat.max a b - Nat.min a b) (skipn (Nat.min a b) s).

(** [s.substring(start)] *)
Definition substringFrom (s : jsstring) (start : Z) : jsstring :=
  substring s start (Z.of_nat (length s)).

(** [s.split(c)] for a one-unit separator. *)
Fixpoint split (d : N) (s : jsstring) : list jsstring :=
  match s with
  | [] => [[]]
  | c :: r =>
      if N.eqb c d then [] :: split d r
      else match split d r with
           | t :: ts => (c :: t) :: ts
           | [] => [[c]]
           end
  end.

(** [s.split(/\s+|⋅/g)].  A separator is a maximal run of white space
    or one U+22C5; [inws] tells that the previous unit was white space
    of a run already counted. *)
Fixpoint splitSeparator (inws : bool) (s : jsstring) : list jsstring :=
  match s with
  | [] => [[]]
  | c :: r =>
      if isWhiteSpace c then
        if inws then splitSeparator true r else [] :: splitSeparator true r
      else if N.eqb c DOT then [] :: splitSeparator false r
      else match splitSeparator false r with
           | t :: ts => (c :: t) :: ts
           | [] => [[c]]
           end
  end.

Definition splitUnitSeparator (s : jsstring) : list jsstring :=
  splitSeparator false s.

(** [parts.join(sep)] *)
Fixpoint join (sep : jsstring) (parts : list jsstring) : jsstring :=
  match parts with
  | [] => []
  | [p] => p
  | p :: rest => p ++ sep ++ join sep rest
  end.

(** *** Number to string, string to number *)

Definition isDigit (c : N) : bool := ((48 <=? c) && (c <=? 57))%N.

Definition digit_of_code (c : N) : option (uint -> uint) :=
  if isDigit c then
    nth_error [D0; D1; D2; D3; D4; D5; D6; D7; D8; D9] (N.to_nat (c - 48))
  else None.

Fixpoint codes_of_uint (d : uint) : jsstring :=
  match d with
  | Nil => []
  | D0 d => 48%N :: codes_of_uint d
  | D1 d => 49%N :: codes_of_uint d
  | D2 d => 50%N :: codes_of_uint d
  | D3 d => 51%N :: codes_of_uint d
  | D4 d => 52%N :: codes_of_uint d
  | D5 d => 53%N :: codes_of_uint d
  | D6 d => 54%N :: codes_of_uint d
  | D7 d => 55%N :: codes_of_uint d
  | D8 d => 56%N :: codes_of_uint d
  | D9 d => 57%N :: codes_of_uint d
  end.

(** A run of decimal digits, as a decimal numeral. *)
Fixpoint uint_of_codes (s : jsstring) : uint :=
  match s with
  | [] => Nil
  | c :: r =>
      match digit_of_code c with
      | Some D => D (uint_of_codes r)
      | None => Nil
      end
  end.

(** [String(n)] for an integer-valued number: an optional minus sign and
    the decimal digits.  (JavaScript switches to exponent notation from
    10^21 on; the embedding keeps the digits.) *)
Definition numToString (z : Z) : jsstring :=
  match Z.to_int z with
  | Pos d => codes_of_uint d
  | Neg d => 45%N :: codes_of_uint d
  end.

(** The value of [Number(s)]. *)
Inductive number :=
| NaN
| Infinity (negative : bool)
| Finite (q : Q).

(** The longest prefix of digits, and the rest. *)
Fixpoint spanDigits (s : jsstring) : jsstring * jsstring :=
  match s with
  | c :: r =>
      if isDigit c then let (ds, rest) := spanDigits r in (c :: ds, rest)
      else ([], s)
  | [] => ([], [])
  end.

Definition digitsValue (ds : jsstring) : Z :=
  Z.of_N (N.of_uint (uint_of_codes ds)).

(** ExponentPart, which must end the literal: [e] or [E], a sign, digits. *)
Definition exponentPart (s : jsstring) : option Z :=
  match s with
  | [] => Some 0%Z
  | c :: r =>
      if (N.eqb c 101 || N.eqb c 69)%N then
        let '(neg, r') :=
          match r with
          | 43%N :: r' => (false, r')
          | 45%N :: r' => (true, r')
          | _ => (false, r)
          end in
        let (ds, rest) := spanDigits r' in
        match ds, rest with
        | _ :: _, [] => Some (if neg then - digitsValue ds else digitsValue ds)%Z
        | _, _ => None
        end
      else None
  end.

(** StrUnsignedDecimalLiteral without [Infinity]:
    digits [. digits] [exponent], or [. digits] [exponent]. *)
Definition unsignedDecimal (s : jsstring) : option Q :=
  let (ip, r1) := spanDigits s in
  let '(fp, r2, ok) :=
    match r1 with
    | 46%N :: r =>
        let (fp, r2) := spanDigits r in
        (fp, r2, match ip, fp with [], [] => false | _, _ => true end)
    | _ => ([], r1, match ip with [] => false | _ => true end)
    end in
  if ok then
    match exponentPart r2 with
    | Some e =>
        Some (inject_Z (digitsValue (ip ++ fp))
              * Qpower (10 # 1) (e - Z.of_nat (length fp)))%Q
    | None => None
    end
  else None.

Definition hexDigit (c : N) : option Z :=
  (if (48 <=? c) && (c <=? 57) then Some (Z.of_N (c - 48))
   else if (97 <=? c) && (c <=? 102) then Some (Z.of_N (c - 87))
   else if (65 <=? c) && (c <=? 70) then Some (Z.of_N (c - 55))
   else None)%N.

(** Digits of a NonDecimalIntegerLiteral in the given radix. *)
Fixpoint radixDigits (radix : Z) (acc : Z) (s : jsstring) : option Z :=
  match s with
  | [] => Some acc
  | c :: r =>
      match hexDigit c with
      | Some v => if (v <? radix)%Z then radixDigits radix (acc * radix + v)%Z r
                  else None
      | None => None
      end
  end.

Definition nonDecimal (s : jsstring) : option Q :=
  match s with
  | 48%N :: p :: (_ :: _) as ds =>
      let radix :=
        (if (p =? 120) || (p =? 88) then Some 16%Z
         else if (p =? 111) || (p =? 79) then Some 8%Z
         else if (p =? 98) || (p =? 66) then Some 2%Z
         else None)%N in
      match radix with
      | Some rx => option_map inject_Z (radixDigits rx 0 ds)
      | None => None
      end
  | _ => None
  end.

Definition INFINITY : jsstring := js "Infinity".

Definition strDecimal (s : jsstring) : number :=
  let '(neg, body) :=
    match s with
    | 43%N :: r => (false, r)
    | 45%N :: r => (true, r)
    | _ => (false, s)
    end in
  if str_eqb body INFINITY then Infinity neg
  else match unsignedDecimal body with
       | Some q => Finite (if neg then (- q)%Q else q)
       | None => NaN
       end.

(** The mathematical value (MV) of a string read as a
    StringNumericLiteral: white space trimmed, the empty string is 0,
    then a non-decimal or a decimal literal, else NaN. *)
Definition mathematicalValue (s : jsstring) : number :=
  let t := trim s in
  match t with
  | [] => Finite 0%Q
  | _ =>
      match nonDecimal t with
      | Some q => Finite q
      | None => strDecimal t
      end
  end.

(** The largest [k] with [2^k <= n/d]. *)
Definition floorLog2 (n d : positive) : Z :=
  (let k := Z.log2 (Z.pos n) - Z.log2 (Z.pos d) in
   if 0 <=? k
   then if Z.pos d * 2 ^ k <=? Z.pos n then k else k - 1
   else if Z.pos d <=? Z.pos n * 2 ^ (- k) then k else k - 1)%Z.

(** The integer nearest to [a/b]; of two equally near, the even one. *)
Definition nearestEven (a b : Z) : Z :=
  (match 2 * (a mod b) ?= b with
   | Lt => a / b
   | Gt => a / b + 1
   | Eq => if Z.even (a / b) then a / b else a / b + 1
   end)%Z.

(** The Number value for a positive real [n/d]: the nearest binary64
    value [m * 2^e], with [m] of at most 53 bits and [e] at least -1074,
    ties going to the even [m]; nothing when the nearest is 2^1024, which
    stands for an infinity. *)
Definition binary64Pos (n d : positive) : option Q :=
  (let e := Z.max (floorLog2 n d - 52) (-1074) in
   if 0 <=? e then
     let m := nearestEven (Z.pos n) (Z.pos d * 2 ^ e) in
     if 2 ^ 1024 <=? m * 2 ^ e then None else Some (inject_Z (m * 2 ^ e))
   else
     Some (Qmake (nearestEven (Z.pos n * 2 ^ (- e)) (Z.pos d))
                 (Z.to_pos (2 ^ (- e)))))%Z.

(** The Number value for a real. *)
Definition binary64 (q : Q) : number :=
  match Qnum q with
  | 0%Z => Finite 0%Q
  | Z.pos n =>
      match binary64Pos n (Qden q) with
      | Some r => Finite r
      | None => Infinity false
      end
  | Z.neg n =>
      match binary64Pos n (Qden q) with
      | Some r => Finite (- r)%Q
      | None => Infinity true
      end
  end.

(** [Number(s)] on a string (StringToNumber): the mathematical value of
    the literal, rounded to the Number value for it.  The exact value is
    rounded, whatever the length of the literal, as V8 does. *)
Definition Number (s : jsstring) : number :=
  match mathematicalValue s with
  | Finite q => binary64 q
  | x => x
  end.

(** [Number.isInteger(x)], and the integer when it is one. *)
Definition integerValue (x : number) : option Z :=
  match x with
  | Finite q =>
      if (Qnum q mod Z.pos (Qden q) =? 0)%Z then Some (Qnum q / Z.pos (Qden q))%Z
      else None
  | _ => None
  end.

Definition isInteger (x : number) : bool :=
  match integerValue x with Some _ => true | None => false end.

(** [x === 0] *)
Definition isZero (x : number) : bool :=
  match x with
  | Finite q => (Qnum q =? 0)%Z
  | _ => false
  end.

End JS.

Import JS.

(* ================================================================= *)
(** ** Errors *)

(** The kinds of the error taxonomy. *)
Inductive ErrorKind :=
| InvalidUnitString
| UnknownUnit
| InvalidExponent
| InvalidDimensions
| InvalidOffsetUse
| InvalidConversion.

(** [QuantityError]: one constructor per [throw] of the sources, with the
    value its message quotes.  The last two are the errors of the
    conversion engine (quantity.ts, not among the sources), after the kinds
    InvalidOffsetUse and InvalidConversion of the specification. *)
Inductive QuantityError :=
| NotEnoughDimensions
    (* "not enough dimensions specified for Quantity." *)
| CustomDimensionsNotNamed
    (* "If a Quantity includes custom dimensions, they must be named ..." *)
| CustomDimensionNamesNotSorted
    (* "customDimensionNames is not sorted into the correct alphabetical order." *)
| InvalidPower (unitStr : jsstring)
    (* `Invalid exponent/power on unit "${unitStr}"` *)
| UnableToParse (unitStr : jsstring)
    (* `Unable to parse the unit "${unitStr}"` *)
| TooManySlashes (unitStr : jsstring)
    (* `Cannot parse a unit with 2 or more "/" symbols: got "${unitStr}"` *)
| UnsupportedUnit (unit : jsstring)
    (* `Unknown/unsupported unit "${unit}"` *)
| OffsetInCompound (unit : jsstring)
| InvalidConversionError.

Definition kind (e : QuantityError) : ErrorKind :=
  match e with
  | NotEnoughDimensions | CustomDimensionsNotNamed
  | CustomDimensionNamesNotSorted => InvalidDimensions
  | InvalidPower _ => InvalidExponent
  | UnableToParse _ | UnsupportedUnit _ => UnknownUnit
  | TooManySlashes _ => InvalidUnitString
  | OffsetInCompound _ => InvalidOffsetUse
  | InvalidConversionError => InvalidConversion
  end.

Inductive result (A : Type) :=
| Ok (a : A)
| Err (e : QuantityError).
Arguments Ok {A} a.
Arguments Err {A} e.

Definition bind {A B} (r : result A) (k : A -> result B) : result B :=
  match r with
  | Ok a => k a
  | Err e => Err e
  end.

Notation "x <- r ;; k" := (bind r (fun x => k))
  (at level 61, r at next level, right associativity).

(** [xs.map(f)] when [f] may throw: the first failure, left to right. *)
Fixpoint mapM {A B} (f : A -> result B) (xs : list A) : result (list B) :=
  match xs with
  | [] => Ok []
  | x :: rest =>
      y <- f x ;;
      ys <- mapM f rest ;;
      Ok (y :: ys)
  end.

Definition succeeds {A} (r : result A) : bool :=
  match r with Ok _ => true | Err _ => false end.

Definition failsWith {A} (k : ErrorKind) (r : result A) : Prop :=
  exists e, r = Err e /\ kind e = k.

(* ================================================================= *)
(** ** dimensions.ts *)

Module Dim.

Definition numBasicDimensions : nat := 8.

(** The fields of a [Dimensions] object. *)
Record Dimensions := mkDimensions {
  dimensions : list Z;
  customDimensionNames : option (list jsstring);
  offset : Q
}.

(** [a.every((v, i, a) => f(v, i, a))], from index [i] on. *)
Fixpoint everyFrom {A} (f : A -> nat -> bool) (i : nat) (l : list A) : bool :=
  match l with
  | [] => true
  | v :: r => f v i && everyFrom f (S i) r
  end.

Definition every {A} (f : A -> nat -> bool) (l : list A) : bool :=
  everyFrom f 0 l.

(** [customDimensionNames.every((v, i, a) => i === 0 || v > a[i - 1])] *)
Definition isSorted (names : list jsstring) : bool :=
  every (fun v i =>
           match i with
           | O => true
           | S j => match nth_error names j with
                    | Some prev => str_ltb prev v
                    | None => false
                    end
           end) names.

(** The constructor: the three checks in the order of the source, then
    the object. *)
Definition new (dims : list Z) (names : option (list jsstring)) (off : Q)
  : result Dimensions :=
  if length dims <? numBasicDimensions then Err NotEnoughDimensions
  else
    let numCustomDimensions :=
      match names with Some ns => length ns | None => 0 end in
    if negb (length dims =? numBasicDimensions + numCustomDimensions)
    then Err CustomDimensionsNotNamed
    else
      match names with
      | Some ns =>
          if negb (isSorted ns) then Err CustomDimensionNamesNotSorted
          else Ok (mkDimensions dims names off)
      | None => Ok (mkDimensions dims names off)
      end.

Definition Dimensionless : Dimensions :=
  mkDimensions [0; 0; 0; 0; 0; 0; 0; 0]%Z None 0.

(** [isDimensionless], without the shortcut on object identity. *)
Definition isDimensionless (d : Dimensions) : bool :=
  every (fun x _ => (x =? 0)%Z) (dimensions d) && Qeq_bool (offset d) 0%Q.

(** [x?.length === y?.length] *)
Definition sameLength (x y : option (list jsstring)) : bool :=
  match x, y with
  | None, None => true
  | Some a, Some b => length a =? length b
  | _, _ => false
  end.

Definition equalTo (this other : Dimensions) : bool :=
  Qeq_bool (offset other) (offset this)
  && (length (dimensions this) =? length (dimensions other))
  && every (fun d i => match nth_error (dimensions other) i with
                       | Some d' => (d =? d')%Z
                       | None => false
                       end) (dimensions this)
  && sameLength (customDimensionNames this) (customDimensionNames other)
  && match customDimensionNames this with
     | None => true
     | Some names =>
         every (fun cdn i =>
                  match customDimensionNames other with
                  | Some onames => match nth_error onames i with
                                   | Some o => str_eqb cdn o
                                   | None => false
                                   end
                  | None => false
                  end) names
     end.

End Dim.

(* ================================================================= *)
(** ** units.ts *)

Module Units.

Import Dim.

(** *** Objects used as tables

    [prefixes], [builtInUnits] and [additionalUnits] are plain objects:
    besides their own properties they inherit the members of
    [Object.prototype], which [key in obj] and [obj[key]] both see. *)

Definition table (V : Type) := list (jsstring * V).

Fixpoint lookup {V} (k : jsstring) (o : table V) : option V :=
  match o with
  | [] => None
  | (k', v) :: rest => if str_eqb k k' then Some v else lookup k rest
  end.

Definition objectPrototypeKeys : list jsstring :=
  [ js "constructor"; js "__defineGetter__"; js "__defineSetter__";
    js "hasOwnProperty"; js "__lookupGetter__"; js "__lookupSetter__";
    js "isPrototypeOf"; js "propertyIsEnumerable"; js "toString";
    js "valueOf"; js "__proto__"; js "toLocaleString" ].

Definition isObjectPrototypeKey (k : jsstring) : bool :=
  existsb (str_eqb k) objectPrototypeKeys.

(** What [obj[key]] evaluates to, when it is not [undefined]. *)
Inductive property (V : Type) :=
| Own (v : V)
| Inherited (key : jsstring).
Arguments Own {V} v.
Arguments Inherited {V} key.

(** [obj[key]]; [None] is [undefined]. *)
Definition get {V} (o : table V) (k : jsstring) : option (property V) :=
  match lookup k o with
  | Some v => Some (Own v)
  | None => if isObjectPrototypeKey k then Some (Inherited k) else None
  end.

(** [key in obj] *)
Definition has {V} (k : jsstring) (o : table V) : bool :=
  match get o k with Some _ => true | None => false end.

(** [{ ...a, ...b }]: the own properties of both, those of [b] winning. *)
Definition spread {V} (a b : table V) : table V := b ++ a.

(** *** SI prefixes *)

Definition MICRO : jsstring := [181%N].   (* U+00B5 MICRO SIGN *)

Definition prefixes : table Q :=
  [ (js "q", 1e-30); (js "r", 1e-27); (js "y", 1e-24); (js "z", 1e-21);
    (js "a", 1e-18); (js "f", 1e-15); (js "p", 1e-12); (js "n", 1e-9);
    (js "u", 1e-6); (MICRO, 1e-6); (js "m", 1e-3); (js "c", 1e-2);
    (js "d", 1e-1);
    (js "h", 1e+2); (js "k", 1e+3); (js "M", 1e+6); (js "G", 1e+9);
    (js "T", 1e+12); (js "P", 1e+15); (js "E", 1e+18); (js "Z", 1e+21);
    (js "Y", 1e+24); (js "R", 1e+27); (js "Q", 1e+30);
    (js "Ki", 1.024e+3); (js "Mi", 1.048576e+6); (js "Gi", 1.073741824e+9);
    (js "Ti", 1.099511627776e+12); (js "Pi", 1.125899906842624e+15);
    (js "Ei", 1.152921504606847e+18); (js "Zi", 1.1805916207174113e+21);
    (js "Yi", 1.2089258196146292e+24) ]%Q.

(** *** Units *)

Record Unit := mkUnit {
  s : Q;
  d : Dimensions;
  offset : option Q;
  prefixable : bool;
  binaryPrefixable : bool
}.

(** [new Dimensions([...])] with the eight basic exponents. *)
Definition basic (mass length_ time temperature current substance
                  luminosity information : Z) : Dimensions :=
  mkDimensions [mass; length_; time; temperature; current; substance;
                luminosity; information] None 0.

Local Open Scope Z_scope.

Definition MASS_DIMENSION := basic 1 0 0 0 0 0 0 0.
Definition DIST_DIMENSION := basic 0 1 0 0 0 0 0 0.
Definition TIME_DIMENSION := basic 0 0 1 0 0 0 0 0.
Definition TEMP_DIMENSION := basic 0 0 0 1 0 0 0 0.

Definition NRGY_DIMENSIONS := basic 1 2 (-2) 0 0 0 0 0.
Definition POWR_DIMENSIONS := basic 1 2 (-3) 0 0 0 0 0.
Definition VOLM_DIMENSIONS := basic 0 3 0 0 0 0 0 0.
Definition AREA_DIMENSIONS := basic 0 2 0 0 0 0 0 0.
Definition INFO_DIMENSIONS := basic 0 0 0 0 0 0 0 1.
Definition PRSR_DIMENSIONS := basic 1 (-1) (-2) 0 0 0 0 0.

(** Shapes of the table's entries: plain, [prefixable: true], both
    prefix flags, and with an [offset]. *)
Definition plain (scale : Q) (dims : Dimensions) : Unit :=
  mkUnit scale dims None false false.
Definition metric (scale : Q) (dims : Dimensions) : Unit :=
  mkUnit scale dims None true false.
Definition metricBinary (scale : Q) (dims : Dimensions) : Unit :=
  mkUnit scale dims None true true.
Definition affine (scale : Q) (dims : Dimensions) (off : Q) : Unit :=
  mkUnit scale dims (Some off) false false.

Definition builtInUnits : table Unit :=
  [ (js "%", plain 1e-2 Dimensionless);
    (js "ppm", plain 1e-6 Dimensionless);
    (js "g", metric 1e-3 MASS_DIMENSION);
    (js "lb", plain 4.5359237e-1 MASS_DIMENSION);
    (js "m", metric 1e+0 DIST_DIMENSION);
    (js "in", plain 2.54e-2 DIST_DIMENSION);
    (js "ft", plain 3.048e-1 DIST_DIMENSION);
    (js "mi", plain 1.609344e+3 DIST_DIMENSION);
    (js "s", metric 1e+0 TIME_DIMENSION);
    (js "min", plain 6e+1 TIME_DIMENSION);
    (js "h", plain 3.6e+3 TIME_DIMENSION);
    (js "day", plain 8.64e+4 TIME_DIMENSION);
    (js "week", plain 6.048e+5 TIME_DIMENSION);
    (js "yr", plain 3.1536e+7 TIME_DIMENSION);
    (js "ka", plain 3.1536e+10 TIME_DIMENSION);
    (js "Ma", plain 3.1536e+13 TIME_DIMENSION);
    (js "Ga", plain 3.1536e+16 TIME_DIMENSION);
    (js "K", metric 1e+0 TEMP_DIMENSION);
    (js "deltaC", plain 1e+0 TEMP_DIMENSION);
    (js "degF", affine 5.555555555555556e-1 TEMP_DIMENSION 2.553722222222222e+2);
    (js "degC", affine 1e+0 TEMP_DIMENSION 2.7315e+2);
    (js "c", plain 2.99792458e+8 (basic 0 1 (-1) 0 0 0 0 0));
    (js "Pa", metric 1e+0 PRSR_DIMENSIONS);
    (js "psi", plain 6.89475729316836e+3 PRSR_DIMENSIONS);
    (js "atm", plain 1.01325e+5 PRSR_DIMENSIONS);
    (js "N", metric 1e+0 (basic 1 1 (-2) 0 0 0 0 0));
    (js "J", metric 1e+0 NRGY_DIMENSIONS);
    (js "eV", metric 1.602176634e-19 NRGY_DIMENSIONS);
    (js "BTU", plain 1.05505585e+3 NRGY_DIMENSIONS);
    (js "Wh", metric 3.6e+3 NRGY_DIMENSIONS);
    (js "W", metric 1e+0 POWR_DIMENSIONS);
    (js "HP", plain 7.4569987158227e+2 POWR_DIMENSIONS);
    (js "L", metric 1e-3 VOLM_DIMENSIONS);
    (js "ha", plain 1e+4 AREA_DIMENSIONS);
    (js "b", metricBinary 1 INFO_DIMENSIONS);
    (js "B", metricBinary 8 INFO_DIMENSIONS);
    (js "A", metric 1e+0 (basic 0 0 0 0 1 0 0 0));
    (js "C", metric 1e+0 (basic 0 0 1 0 1 0 0 0));
    (js "Ah", metric 3.6e+3 (basic 0 0 1 0 1 0 0 0));
    (js "V", metric 1 (basic 1 2 (-3) 0 (-1) 0 0 0));
    (js "ohm", plain 1 (basic 1 2 (-3) 0 (-2) 0 0 0));
    (js "F", metric 1e+0 (basic (-1) (-2) 4 0 2 0 0 0));
    (js "H", metric 1e+0 (basic 1 2 (-2) 0 (-2) 0 0 0));
    (js "S", metric 1e+0 (basic (-1) (-2) 3 0 2 0 0 0));
    (js "Wb", metric 1e+0 (basic 1 2 (-2) 0 (-1) 0 0 0));
    (js "T", metric 1e+0 (basic 1 0 (-2) 0 (-1) 0 0 0));
    (js "mol", plain 1e+0 (basic 0 0 0 0 0 1 0 0));
    (js "M", plain 1e+3 (basic 0 (-3) 0 0 0 1 0 0));
    (js "Hz", metric 1 (basic 0 0 (-1) 0 0 0 0 0));
    (js "pphpd",
      plain (1 / 3600)
        (mkDimensions [0; 0; -1; 0; 0; 0; 0; 0; -1; 1]%Z
           (Some [js "dir"; js "pax"]) 0)) ]%Q.

Local Close Scope Z_scope.

(** *** Parsed units *)

Record ParsedUnit := mkParsedUnit {
  prefix : option jsstring;
  unit : jsstring;
  power : Z
}.

(** [units[rest]?.prefixable] and [units[rest]?.binaryPrefixable]: the
    flag of an own entry; [undefined] on a missing or inherited one. *)
Definition flag (f : Unit -> bool) (units : table Unit) (name : jsstring) : bool :=
  match get units name with
  | Some (Own u) => f u
  | _ => false
  end.

(** [str[0]] as a property key: the one-unit string, or ["undefined"]. *)
Definition firstUnit (str : jsstring) : jsstring :=
  match str with
  | c :: _ => [c]
  | [] => js "undefined"
  end.

(** [prefixedUnit[0] === "_"] *)
Definition startsWithUnderscore (str : jsstring) : bool :=
  match str with
  | c :: _ => N.eqb c UNDERSCORE
  | [] => false
  end.

Definition parseSingleUnit (unitStr : jsstring)
    (additionalUnits : option (table Unit)) : result ParsedUnit :=
  let units :=
    match additionalUnits with
    | Some au => spread builtInUnits au
    | None => builtInUnits
    end in
  let caretPos := indexOf unitStr CARET in
  let prefixedUnit :=
    if (caretPos =? -1)%Z then unitStr else substring unitStr 0 caretPos in
  let power_ :=
    if (caretPos =? -1)%Z then Finite 1
    else Number (substringFrom unitStr (caretPos + 1)) in
  if isZero power_ || negb (isInteger power_) then Err (InvalidPower unitStr)
  else
    let power := match integerValue power_ with Some z => z | None => 0%Z end in
    if has prefixedUnit units then
      Ok (mkParsedUnit None prefixedUnit power)
    else if startsWithUnderscore prefixedUnit then
      Ok (mkParsedUnit None prefixedUnit power)
    else
      let firstLetter := firstUnit prefixedUnit in
      let rest := substringFrom prefixedUnit 1 in
      if has firstLetter prefixes && flag prefixable units rest then
        Ok (mkParsedUnit (Some firstLetter) rest power)
      else
        let firstTwo := substring prefixedUnit 0 2 in
        let rest := substringFrom prefixedUnit 2 in
        if has firstTwo prefixes && flag binaryPrefixable units rest then
          Ok (mkParsedUnit (Some firstTwo) rest power)
        else Err (UnableToParse unitStr).

Definition negatePower (x : ParsedUnit) : ParsedUnit :=
  mkParsedUnit (prefix x) (unit x) (power x * -1).

Definition parseUnits (unitStr : jsstring)
    (additionalUnits : option (table Unit)) : result (list ParsedUnit) :=
  let sections := split SLASH unitStr in
  if 2 <? length sections then Err (TooManySlashes unitStr)
  else
    numeratorParts <-
      mapM (fun part => parseSingleUnit part additionalUnits)
           (splitUnitSeparator (trim (nth 0 sections []))) ;;
    match nth_error sections 1 with
    | Some section =>
        denominatorParts <-
          mapM (fun part => parseSingleUnit part additionalUnits)
               (splitUnitSeparator (trim section)) ;;
        Ok (numeratorParts ++ map negatePower denominatorParts)
    | None => Ok numeratorParts
    end.

(** [(u.prefix ?? "") + u.unit] *)
Definition prefixed (u : ParsedUnit) : jsstring :=
  match prefix u with Some p => p | None => [] end ++ unit u.

Definition toUnitString (units : list ParsedUnit) : jsstring :=
  let '(numerator, denominator) :=
    fold_left
      (fun '(numerator, denominator) u =>
         if (0 <? power u)%Z then
           (numerator ++
              [prefixed u ++
               (if negb (power u =? 1)%Z then CARET :: numToString (power u)
                else [])],
            denominator)
         else
           (numerator,
            denominator ++
              [prefixed u ++
               (if negb (power u =? -1)%Z
                then CARET :: numToString (power u * -1)
                else [])]))
      units ([], []) in
  if negb (length denominator =? 0) then
    if negb (length numerator =? 0) then
      join [DOT] numerator ++ [SLASH] ++ join [DOT] denominator
    else
      join [DOT]
        (map (fun u => prefixed u ++ CARET :: numToString (power u)) units)
  else join [DOT] numerator.

Definition getUnitData (unit : jsstring)
    (additionalUnits : option (table Unit)) : result (property Unit) :=
  let found :=
    match get builtInUnits unit with
    | Some v => Some v
    | None =>
        match additionalUnits with
        | Some au => get au unit
        | None => None
        end
    end in
  match found with
  | Some v => Ok v
  | None =>
      if startsWithUnderscore unit then
        dims <- Dim.new [0; 0; 0; 0; 0; 0; 0; 0; 1]%Z
                        (Some [substringFrom unit 1]) 0 ;;
        Ok (Own (mkUnit 1 dims None false false))
      else Err (UnsupportedUnit unit)
  end.

(** *** The base SI units *)

Record PreferredUnit := mkPreferredUnit {
  preferredPrefix : option jsstring;
  preferredUnit : jsstring
}.

Definition baseSIUnits : list PreferredUnit :=
  [ mkPreferredUnit (Some (js "k")) (js "g");
    mkPreferredUnit None (js "m");
    mkPreferredUnit None (js "s");
    mkPreferredUnit None (js "K");
    mkPreferredUnit None (js "A");
    mkPreferredUnit None (js "mol");
    mkPreferredUnit None (js "b");
    mkPreferredUnit None (js "N");
    mkPreferredUnit None (js "Pa");
    mkPreferredUnit None (js "J");
    mkPreferredUnit None (js "W");
    mkPreferredUnit None (js "C");
    mkPreferredUnit None (js "V");
    mkPreferredUnit None (js "F");
    mkPreferredUnit None (js "ohm");
    mkPreferredUnit None (js "S");
    mkPreferredUnit None (js "Wb");
    mkPreferredUnit None (js "T");
    mkPreferredUnit None (js "H") ].

End Units.

Import Units.

(* ================================================================= *)
(** ** The conversion engine *)

Module Quantity.

Import Dim Units.

(** Modelled from the spec: the exponent arithmetic on [Dimensions]
    ("dims := combine(dims, u.dims · power)", section 4.5), which lives in
    quantity.ts, not among the sources.  [customOf] pairs the custom names
    of a [Dimensions] with their exponents (slots 8 and up). *)
Definition customOf (x : Dimensions) : list (jsstring * Z) :=
  List.combine (match customDimensionNames x with Some ns => ns | None => [] end)
               (skipn numBasicDimensions (dimensions x)).

(** Modelled from the spec: the custom part of "combine" (section 4.1),
    absent from the sources: "take the union of names, in sorted order,
    summing coexisting exponents and copying absent ones". *)
Fixpoint mergeCustom (a : list (jsstring * Z)) : list (jsstring * Z) -> list (jsstring * Z) :=
  match a with
  | [] => fun b => b
  | (n1, e1) :: a' =>
      fix inner (b : list (jsstring * Z)) : list (jsstring * Z) :=
        match b with
        | [] => a
        | (n2, e2) :: b' =>
            if str_ltb n1 n2 then (n1, e1) :: mergeCustom a' b
            else if str_ltb n2 n1 then (n2, e2) :: inner b'
            else (n1, (e1 + e2)%Z) :: mergeCustom a' b'
        end
  end.

(** Modelled from the spec: "If a resulting custom exponent becomes 0,
    drop that slot and its name" (section 4.1). *)
Definition dropZero (custom : list (jsstring * Z)) : list (jsstring * Z) :=
  filter (fun slot => negb (snd slot =? 0)%Z) custom.

(** Modelled from the spec: the basic part of "combine" (section 4.1),
    absent from the sources: "element-wise add rhsSign·rhs to lhs on the
    basic slots". *)
Fixpoint addExponents (rhsSign : Z) (a b : list Z) : list Z :=
  match a, b with
  | x :: a', y :: b' => (x + rhsSign * y)%Z :: addExponents rhsSign a' b'
  | _, _ => []
  end.

(** Modelled from the spec: "combine(lhs, rhs, rhsSign)" of section 4.1,
    absent from the sources; the eight basic exponents followed by the
    custom ones that are left, no list of names when none is left, and
    offset 0 ("Offsets are not composed"). *)
Definition combine (lhs rhs : Dimensions) (rhsSign : Z) : Dimensions :=
  let custom :=
    dropZero (mergeCustom (customOf lhs)
                (map (fun slot => (fst slot, (rhsSign * snd slot)%Z)) (customOf rhs))) in
  mkDimensions
    (addExponents rhsSign (firstn numBasicDimensions (dimensions lhs))
                          (firstn numBasicDimensions (dimensions rhs))
     ++ map snd custom)
    (match custom with [] => None | _ => Some (map fst custom) end)
    0.

(** Modelled from the spec: "u.dims · power" of section 4.5, absent from
    the sources; every exponent times the power. *)
Definition pow (x : Dimensions) (p : Z) : Dimensions :=
  mkDimensions (map (fun e => (e * p)%Z) (dimensions x))
               (customDimensionNames x) (Dim.offset x).

(** Modelled from the spec: the comparison of source and target
    dimensions "ignoring offsets" (section 4.5), absent from the sources;
    [equalTo] of dimensions.ts on both sides with the offset set to 0. *)
Definition sameDimensions (x y : Dimensions) : bool :=
  equalTo (mkDimensions (dimensions x) (customDimensionNames x) 0)
          (mkDimensions (dimensions y) (customDimensionNames y) 0).

(** Modelled from the spec: the composite (scale, dims, offset) of a
    parsed unit list (section 4.5, "Composite reduction"); quantity.ts is
    not among the sources. *)
Record Composite := mkComposite {
  scale : Q;
  dims : Dimensions;
  offsetOf : Q
}.

(** Modelled from the spec: "prefixFactor = 1 if no prefix", else the
    factor of the prefix in [prefixes] of units.ts. *)
Definition prefixFactor (p : option jsstring) : Q :=
  match p with
  | Some x => match lookup x prefixes with Some f => f | None => 1 end
  | None => 1
  end.

(** Modelled from the spec: "look up the descriptor u", with
    [getUnitData] of units.ts; a member inherited from [Object.prototype]
    is no descriptor. *)
Definition descriptor (u : ParsedUnit) (au : option (table Unit)) : result Unit :=
  found <- getUnitData (unit u) au ;;
  match found with
  | Own x => Ok x
  | Inherited _ => Err (UnsupportedUnit (unit u))
  end.

(** Modelled from the spec: one step of the composite reduction, absent
    from the sources: "f = prefixFactor · u.scale", "scale *= f^power",
    "dims := combine(dims, u.dims · power)"; a unit with an offset passes
    its offset times the prefix factor when it is the solitary sub-unit
    with power 1, and is an InvalidOffsetUse otherwise. *)
Definition reduceUnit (solitary : bool) (au : option (table Unit))
    (acc : Composite) (u : ParsedUnit) : result Composite :=
  x <- descriptor u au ;;
  let f := (prefixFactor (prefix u) * s x)%Q in
  let acc' := mkComposite (scale acc * Qpower f (power u))%Q
                          (combine (dims acc) (pow (d x) (power u)) 1)
                          (offsetOf acc) in
  match Units.offset x with
  | None => Ok acc'
  | Some o =>
      if solitary && (power u =? 1)%Z
      then Ok (mkComposite (scale acc') (dims acc')
                           (o * prefixFactor (prefix u))%Q)
      else Err (OffsetInCompound (unit u))
  end.

(** Modelled from the spec: the reduction over the list, left to right. *)
Fixpoint reduceUnits (solitary : bool) (au : option (table Unit))
    (acc : Composite) (units : list ParsedUnit) : result Composite :=
  match units with
  | [] => Ok acc
  | u :: rest =>
      acc' <- reduceUnit solitary au acc u ;;
      reduceUnits solitary au acc' rest
  end.

(** Modelled from the spec: the composite of a parsed list, absent from
    the sources: "Start with scale = 1, dims = Dimensionless (offset 0)". *)
Definition composite (units : list ParsedUnit) (au : option (table Unit))
  : result Composite :=
  reduceUnits (length units =? 1) au (mkComposite 1 Dimensionless 0) units.

(** Modelled from the spec: "Empty string denotes the dimensionless unit"
    (section 6), the empty parsed list, decided in quantity.ts before the
    parser is called; any other string goes through [parseUnits]. *)
Definition unitsOfString (unitStr : jsstring) (au : option (table Unit))
  : result (list ParsedUnit) :=
  match unitStr with
  | [] => Ok []
  | _ => parseUnits unitStr au
  end.

(** Modelled from the spec: a Quantity holds its magnitude in SI base
    form and its dimensions (section 3); the class is in quantity.ts, not
    among the sources. *)
Record Quantity := mkQuantity {
  magnitude : Q;
  dimensionsOf : Dimensions
}.

(** Modelled from the spec: "Magnitude-to-base", in its words:
    "m_base = (m_input + offset_in) · scale_in". *)
Definition toBase (m : Q) (c : Composite) : Q :=
  ((m + offsetOf c) * scale c)%Q.

(** Modelled from the spec: "Magnitude-from-base", in its words:
    "m_out = m_base / scale_out − offset_out". *)
Definition fromBase (b : Q) (c : Composite) : Q :=
  (b / scale c - offsetOf c)%Q.

(** Modelled from the spec: construction from (magnitude, units), absent
    from the sources: parse, reduce, store the magnitude in SI base. *)
Definition new (m : Q) (unitStr : jsstring) (au : option (table Unit))
  : result Quantity :=
  units <- unitsOfString unitStr au ;;
  c <- composite units au ;;
  Ok (mkQuantity (toBase m c) (dims c)).

(** Modelled from the spec: [convert] (section 4.5), absent from the
    sources: parse and reduce the target, "verify source and target dims
    are equal (ignoring offsets) before the divide; otherwise
    InvalidConversion". *)
Definition convert (q : Quantity) (target : jsstring)
    (au : option (table Unit)) : result Q :=
  units <- unitsOfString target au ;;
  c <- composite units au ;;
  if sameDimensions (dimensionsOf q) (dims c)
  then Ok (fromBase (magnitude q) c)
  else Err InvalidConversionError.

(** Modelled from the spec: the end-to-end conversion of the tests,
    [new Quantity(m, {units: source}).convert(target)]. *)
Definition conversion (m : Q) (source target : jsstring)
    (au : option (table Unit)) : result Q :=
  q <- new m source au ;;
  convert q target au.


(** [assertAlmostEquals] of the tests, without an explicit tolerance: the
    same value, or within [expected * 1e-7] of it. *)
Definition assertAlmostEquals (actual expected : Q) : bool :=
  Qeq_bool actual expected
  || Qle_bool (Qabs (expected - actual)) (expected * 1e-7).

(** A conversion that returns, and passes [assertAlmostEquals]. *)
Definition yields (r : result Q) (expected : Q) : bool :=
  match r with
  | Ok actual => assertAlmostEquals actual expected
  | Err _ => false
  end.

(** A unit string of the tests, its parts joined by U+22C5. *)
Definition dotted (parts : list string) : jsstring :=
  join [DOT] (map js parts).


Definition offsetFreeTests : list (Q * jsstring * jsstring * Q) :=
  [ (15, js "%", [], 0.15);
    (0.5, [], js "%", 50);
    (300, js "ppm", [], 300e-6);
    (1, js "cm", js "m", 0.01);
    (2, js "in", js "m", 0.0508);
    (12, js "in", js "ft", 1);
    (1, js "mi", js "ft", 5280);
    (100, js "km/h", js "mi/h", 62.137119224);
    (500, js "g", js "kg", 0.5);
    (500, js "g", js "s^2 N / m", 0.5);
    (10, js "s^2 N / m", js "g", 10000);
    (500, js "g", dotted ["N"; "h^2/ft"]%string, 1.175925925925926e-8);
    (15, dotted ["N"; "h^2/ft"]%string, js "g", 637795275590.5511);
    (500, js "ms", js "s", 0.5);
    (120, js "s", js "min", 2);
    (3, js "min", js "s", 180);
    (45, js "min", js "h", 0.75);
    (1, js "h", js "s", 3600);
    (24, js "h", js "day", 1);
    (2, js "day", js "h", 48);
    (7, js "day", js "week", 1);
    (2, js "week", js "day", 14);
    (1, js "yr", js "day", 365);
    (2, js "ka", js "yr", 2000);
    (3, js "Ma", js "yr", 3000000);
    (4, js "Ga", js "yr", 4000000000);
    (1, js "h^2", js "s^2", 12960000);
    (1, js "m/s", js "km/h", 3.6);
    (1, js "c", js "m/s", 299792458);
    (1, js "Pa", js "N/m^2", 1);
    (123, js "kPa", js "psi", 17.839641741);
    (50, js "psi", js "kPa", 344.737864658);
    (50, js "psi", js "kN/m^2", 344.737864658);
    (1, js "atm", js "kPa", 101.325);
    (1234, dotted ["kg"; "m/s^2"]%string, js "N", 1234);
    (1234, js "N", dotted ["g"; "m/s^2"]%string, 1234000);
    (-17, dotted ["N"; "m"]%string, js "J", -17);
    (3.68, dotted ["W"; "s"]%string, js "J", 3.68);
    (1, js "kWh", js "MJ", 3.6);
    (7.2, js "MJ", js "kWh", 2);
    (1, js "BTU", js "J", 1055.05585);
    (2.5, js "kW", js "HP", 3.352555224);
    (1, js "HP", js "W", 745.699871582);
    (317, js "mL", js "cm^3", 317);
    (1.5, js "L", js "cm^3", 1500);
    (1234, js "cm^3", js "L", 1.234);
    (1, js "ha", js "m^2", 1e4);
    (24, js "b", js "B", 3);
    (1, js "B", js "b", 8);
    (1, js "KiB", js "B", 1024);
    (1, js "MiB", js "B", 1048576);
    (1, js "MiB", js "KiB", 1024);
    (1, js "GB", js "B", 1e9);
    (1, js "GiB", js "B", 1073741824);
    (1, js "GiB", js "MiB", 1024);
    (1, js "TiB", js "GiB", 1024);
    (1, js "PiB", js "TiB", 1024);
    (1, js "EiB", js "PiB", 1024);
    (1, js "ZiB", js "EiB", 1024);
    (1, js "YiB", js "ZiB", 1024);
    (1, js "A", js "C/s", 1);
    (1, js "C", dotted ["A"; "s"]%string, 1);
    (1, js "mAh", dotted ["mA"; "h"]%string, 1);
    (1, js "Ah", js "C", 3600);
    (1, js "V", dotted ["kg"; "m^2/A"; "s^3"]%string, 1);
    (1, js "ohm", dotted ["kg"; "m^2/A^2"; "s^3"]%string, 1);
    (1, js "F", dotted ["s^4"; "A^2 / kg^1"; "m^2"]%string, 1);
    (1, js "H", dotted ["kg"; "m^2/s^2"; "A^2"]%string, 1);
    (1, js "S", js "ohm^-1", 1);
    (1, js "Wb", dotted ["kg"; "m^2/s^2"; "A"]%string, 1);
    (1, js "T", js "Wb / m^2", 1);
    (1, js "M", js "mol / L", 1);
    (1, js "Hz", js "s^-1", 1) ]%Q.

(** The pairs of the step "invalid conversions": source and target. *)
Definition invalidConversions : list (Q * jsstring * jsstring) :=
  [ (3, js "kg", js "m");
    (1, js "day", js "kg");
    (1, js "A", js "s/C");
    (1, js "A", js "C s") ]%Q.

End Quantity.

Import Quantity.

(* ================================================================= *)
(** * Examples *)

(** The embedding run on inputs of the sources' comments and tests. *)

Example Number_ex1 : integerValue (Number (js "-12")) = Some (-12)%Z.
Proof. reflexivity. Qed.

Example Number_ex2 : integerValue (Number (js "2.50e1")) = Some 25%Z.
Proof. reflexivity. Qed.

Example Number_ex3 : integerValue (Number (js "0x1f")) = Some 31%Z.
Proof. reflexivity. Qed.

Example Number_ex5 :
  integerValue (Number (js "+3")) = Some 3%Z
  /\ integerValue (Number (js "9007199254740993")) = Some 9007199254740992%Z
  /\ Number (js "1e400") = Infinity false
  /\ isZero (Number (js "1e-400")) = true.
Proof. vm_compute. repeat split. Qed.

Example Number_ex4 : Number (js "1.5.2") = NaN /\ Number (js "-Infinity") = Infinity true
                     /\ isZero (Number (js "")) = true /\ integerValue (Number (js "0.5")) = None.
Proof. repeat split; reflexivity. Qed.

Example split_ex1 :
  splitUnitSeparator (js "kg m" ++ [DOT] ++ js "s") = [js "kg"; js "m"; js "s"].
Proof. reflexivity. Qed.

Example split_ex2 : splitUnitSeparator (js "a " ++ [DOT] ++ js "b") = [js "a"; []; js "b"].
Proof. reflexivity. Qed.

Example numToString_ex : numToString (-120) = js "-120" /\ numToString 7 = js "7".
Proof. split; reflexivity. Qed.

Example new_ok :
  Dim.new [0; 0; (-1); 0; 0; 0; 0; 0; (-1); 1]%Z (Some [js "dir"; js "pax"]) 0
  = Ok (Dim.mkDimensions [0; 0; (-1); 0; 0; 0; 0; 0; (-1); 1]%Z
          (Some [js "dir"; js "pax"]) 0).
Proof. reflexivity. Qed.

Example new_unsorted :
  Dim.new [0; 0; 0; 0; 0; 0; 0; 0; 1; 1]%Z (Some [js "floop"; js "floop"]) 0
  = Err CustomDimensionNamesNotSorted.
Proof. reflexivity. Qed.

Example parse_km2 :
  parseSingleUnit (js "km^2") None = Ok (mkParsedUnit (Some (js "k")) (js "m") 2).
Proof. vm_compute. reflexivity. Qed.

Example parse_MiB :
  parseSingleUnit (js "MiB") None = Ok (mkParsedUnit (Some (js "Mi")) (js "B") 1).
Proof. vm_compute. reflexivity. Qed.

Example parse_compound :
  parseUnits (js "s^4" ++ [DOT] ++ js "A^2 / kg^1" ++ [DOT] ++ js "m^2") None
  = Ok [ mkParsedUnit None (js "s") 4; mkParsedUnit None (js "A") 2;
         mkParsedUnit (Some (js "k")) (js "g") (-1);
         mkParsedUnit None (js "m") (-2) ].
Proof. vm_compute. reflexivity. Qed.

Example format_compound :
  toUnitString [ mkParsedUnit None (js "s") 4; mkParsedUnit None (js "A") 2;
         mkParsedUnit (Some (js "k")) (js "g") (-1);
         mkParsedUnit None (js "m") (-2) ]
  = js "s^4" ++ [DOT] ++ js "A^2/kg" ++ [DOT] ++ js "m^2".
Proof. vm_compute. reflexivity. Qed.

Example parse_empty : parseUnits [] None = Err (UnableToParse []).
Proof. vm_compute. reflexivity. Qed.

Example parse_slash_s : parseUnits (js "/s") None = Err (UnableToParse []).
Proof. vm_compute. reflexivity. Qed.

Example parse_toString :
  parseSingleUnit (js "toString") None = Ok (mkParsedUnit None (js "toString") 1).
Proof. vm_compute. reflexivity. Qed.

Example conversion_kWh_MJ : yields (conversion 1 (js "kWh") (js "MJ") None) 3.6 = true.
Proof. vm_compute. reflexivity. Qed.

Example conversion_GiB_B :
  yields (conversion 1 (js "GiB") (js "B") None) 1073741824 = true.
Proof. vm_compute. reflexivity. Qed.

Example conversion_g_compound :
  yields (conversion 500 (js "g") (js "s^2 N / m") None) 0.5 = true.
Proof. vm_compute. reflexivity. Qed.

Example conversion_percent :
  yields (conversion 15 (js "%") [] None) 0.15 = true.
Proof. vm_compute. reflexivity. Qed.

Example conversion_kg_m :
  conversion 3 (js "kg") (js "m") None = Err InvalidConversionError.
Proof. vm_compute. reflexivity. Qed.

Example conversion_A_sC :
  conversion 1 (js "A") (js "s/C") None = Err InvalidConversionError.
Proof. vm_compute. reflexivity. Qed.

(* ================================================================= *)
(** * Properties *)

(** ** Strings *)

Section StringFacts.

Lemma str_eqb_eq (a b : jsstring) : str_eqb a b = true <-> a = b.
Proof.
  revert b; induction a as [|x a IH]; intros [|y b]; simpl; split;
    try congruence; try reflexivity.
  - rewrite andb_true_iff, N.eqb_eq, IH. intros [-> ->]; reflexivity.
  - intros H; injection H as -> ->.
    rewrite N.eqb_refl. simpl. apply IH. reflexivity.
Qed.

Lemma str_eqb_refl (a : jsstring) : str_eqb a a = true.
Proof. apply str_eqb_eq; reflexivity. Qed.

Lemma str_eqb_neq (a b : jsstring) : str_eqb a b = false <-> a <> b.
Proof.
  rewrite <- str_eqb_eq. destruct (str_eqb a b); split; congruence.
Qed.

Lemma str_ltb_irrefl (a : jsstring) : str_ltb a a = false.
Proof.
  induction a as [|x a IH]; simpl; [reflexivity|].
  rewrite N.ltb_irrefl, N.eqb_refl. exact IH.
Qed.

Lemma str_ltb_trans (a b c : jsstring) :
  str_ltb a b = true -> str_ltb b c = true -> str_ltb a c = true.
Proof.
  revert b c; induction a as [|x a IH]; intros [|y b] [|z c]; simpl;
    try congruence.
  destruct (N.ltb_spec x y) as [Hxy|Hxy].
  - intros _. destruct (N.ltb_spec y z) as [Hyz|Hyz].
    + intros _. destruct (N.ltb_spec x z); [reflexivity|lia].
    + destruct (N.eqb_spec y z) as [->|]; [|discriminate].
      intros _. destruct (N.ltb_spec x z); [reflexivity|lia].
  - destruct (N.eqb_spec x y) as [->|]; [|discriminate].
    intros Hab. destruct (N.ltb_spec y z) as [Hyz|Hyz]; [reflexivity|].
    destruct (N.eqb_spec y z) as [->|]; [|discriminate].
    apply IH. exact Hab.
Qed.

(** Code units a string is free of. *)
Definition free (P : N -> bool) (t : jsstring) : Prop :=
  forall c, In c t -> P c = false.

Lemma free_nil P : free P [].
Proof. intros c []. Qed.

Lemma free_cons P c t : free P (c :: t) <-> P c = false /\ free P t.
Proof.
  unfold free; simpl; split.
  - intros H; split; [apply H; now left | intros x Hx; apply H; now right].
  - intros [Hc Ht] x [<-|Hx]; [exact Hc | apply Ht, Hx].
Qed.

Lemma free_app P a b : free P (a ++ b) <-> free P a /\ free P b.
Proof.
  unfold free; split.
  - intros H; split; intros c Hc; apply H, in_or_app; [now left|now right].
  - intros [Ha Hb] c Hc. apply in_app_or in Hc as [Hc|Hc]; auto.
Qed.

Lemma free_incl P a b : incl a b -> free P b -> free P a.
Proof. intros Hi Hb c Hc. apply Hb, Hi, Hc. Qed.

(** *** indexOf and substring *)

Lemma indexOf_ge (t : jsstring) c : (-1 <= indexOf t c)%Z.
Proof.
  induction t as [|x t IH]; simpl; [lia|].
  destruct (N.eqb x c); [lia|].
  destruct (Z.ltb_spec (indexOf t c) 0); lia.
Qed.

Lemma indexOf_absent (t : jsstring) c :
  indexOf t c = (-1)%Z <-> ~ In c t.
Proof.
  induction t as [|x t IH]; simpl.
  - split; [intros _ []|reflexivity].
  - destruct (N.eqb_spec x c) as [->|Hne].
    + split; [discriminate|]. intros H; exfalso; apply H; now left.
    + pose proof (indexOf_ge t c).
      destruct (Z.ltb_spec (indexOf t c) 0) as [Hlt|Hge].
      * split; [|reflexivity]. intros _ [E|Hin]; [congruence|].
        apply IH in Hin; [exact Hin|lia].
      * split; [lia|]. intros Hnot; exfalso.
        assert (indexOf t c = (-1)%Z) by (apply IH; tauto). lia.
Qed.

(** The first occurrence cuts the string in two. *)
Lemma indexOf_app (a b : jsstring) c :
  ~ In c a -> indexOf (a ++ c :: b) c = Z.of_nat (length a).
Proof.
  induction a as [|x a IH]; simpl; intros Hnot.
  - rewrite N.eqb_refl. reflexivity.
  - destruct (N.eqb_spec x c) as [->|Hne]; [exfalso; apply Hnot; now left|].
    rewrite IH by tauto.
    destruct (Z.ltb_spec (Z.of_nat (length a)) 0); lia.
Qed.

Lemma indexOf_split (t : jsstring) c :
  indexOf t c <> (-1)%Z ->
  exists a b, t = a ++ c :: b /\ ~ In c a
              /\ indexOf t c = Z.of_nat (length a).
Proof.
  induction t as [|x t IH]; simpl; [congruence|].
  destruct (N.eqb_spec x c) as [->|Hne].
  - intros _. exists [], t. simpl. repeat split; tauto.
  - destruct (Z.ltb_spec (indexOf t c) 0) as [Hlt|Hge]; [congruence|].
    intros _. destruct IH as (a & b & -> & Hnot & Hi).
    { pose proof (indexOf_ge t c). lia. }
    exists (x :: a), b. simpl. repeat split.
    + intros [E|Hin]; [congruence|tauto].
    + rewrite Hi. lia.
Qed.

Lemma substring_firstn (t : jsstring) (n : nat) :
  substring t 0 (Z.of_nat n) = firstn n t.
Proof.
  unfold substring, clamp. rewrite Nat2Z.id. change (Z.to_nat 0) with 0.
  replace (Nat.min (Nat.min 0 (length t)) (Nat.min n (length t))) with 0 by lia.
  replace (Nat.max (Nat.min 0 (length t)) (Nat.min n (length t)) - 0)
    with (Nat.min n (length t)) by lia.
  simpl skipn.
  destruct (Nat.le_ge_cases n (length t)).
  - rewrite Nat.min_l by lia. reflexivity.
  - rewrite Nat.min_r by lia. rewrite !firstn_all2 by lia. reflexivity.
Qed.

Lemma substringFrom_skipn (t : jsstring) (n : nat) :
  substringFrom t (Z.of_nat n) = skipn n t.
Proof.
  unfold substringFrom, substring, clamp. rewrite !Nat2Z.id.
  replace (Nat.min (Nat.min n (length t)) (Nat.min (length t) (length t)))
    with (Nat.min n (length t)) by lia.
  replace (Nat.max (Nat.min n (length t)) (Nat.min (length t) (length t)))
    with (length t) by lia.
  destruct (Nat.le_ge_cases n (length t)).
  - rewrite Nat.min_l by lia.
    rewrite firstn_all2; [reflexivity|]. rewrite length_skipn. lia.
  - rewrite Nat.min_r by lia. rewrite Nat.sub_diag.
    rewrite !skipn_all2 by lia. reflexivity.
Qed.

Lemma substring_prefix (a b : jsstring) :
  substring (a ++ b) 0 (Z.of_nat (length a)) = a.
Proof.
  rewrite substring_firstn, firstn_app, Nat.sub_diag, firstn_all.
  simpl. apply app_nil_r.
Qed.

Lemma substringFrom_suffix (a b : jsstring) n :
  n = Z.of_nat (length a) -> substringFrom (a ++ b) n = b.
Proof.
  intros ->. rewrite substringFrom_skipn, skipn_app, skipn_all, Nat.sub_diag.
  reflexivity.
Qed.

(** *** split, trim and join *)

Lemma split_nonempty d (t : jsstring) : split d t <> [].
Proof.
  destruct t as [|c t]; simpl; [discriminate|].
  destruct (N.eqb c d); [discriminate|].
  destruct (split d t); discriminate.
Qed.

Lemma split_absent d (t : jsstring) : ~ In d t -> split d t = [t].
Proof.
  induction t as [|c t IH]; simpl; intros Hnot; [reflexivity|].
  destruct (N.eqb_spec c d) as [->|Hne]; [exfalso; apply Hnot; now left|].
  rewrite IH by tauto. reflexivity.
Qed.

Lemma split_app d (a b : jsstring) :
  ~ In d a -> split d (a ++ d :: b) = a :: split d b.
Proof.
  induction a as [|c a IH]; simpl; intros Hnot.
  - rewrite N.eqb_refl. reflexivity.
  - destruct (N.eqb_spec c d) as [->|Hne]; [exfalso; apply Hnot; now left|].
    rewrite IH by tauto. reflexivity.
Qed.

Lemma split_parts d (t : jsstring) :
  Forall (fun part => ~ In d part /\ incl part t) (split d t).
Proof.
  induction t as [|c t IH]; simpl.
  - constructor; [|constructor]. split; [intros []|apply incl_refl].
  - destruct (N.eqb_spec c d) as [->|Hne].
    + constructor; [split; [intros []|intros x []]|].
      eapply Forall_impl; [|exact IH].
      intros part [Hn Hi]; split; [exact Hn|]. now apply incl_tl.
    + pose proof (split_nonempty d t) as Hne'.
      destruct (split d t) as [|p ps]; [congruence|].
      inversion IH as [|? ? Hhd Hps]; subst. destruct Hhd as [Hn Hi].
      constructor.
      * split; [intros [E|Hin]; [congruence|tauto]|].
        intros x [<-|Hx]; [now left|right; now apply Hi].
      * eapply Forall_impl; [|exact Hps].
        intros part [Hn' Hi']; split; [exact Hn'|]. now apply incl_tl.
Qed.

Lemma trimStart_incl (t : jsstring) : incl (trimStart t) t.
Proof.
  induction t as [|c t IH]; simpl; [apply incl_refl|].
  destruct (isWhiteSpace c); [now apply incl_tl|apply incl_refl].
Qed.

Lemma trim_incl (t : jsstring) : incl (trim t) t.
Proof.
  unfold trim. intros c Hc.
  apply in_rev in Hc. apply trimStart_incl in Hc.
  apply in_rev in Hc. apply trimStart_incl in Hc. exact Hc.
Qed.

Lemma trimStart_free (t : jsstring) : free isWhiteSpace t -> trimStart t = t.
Proof.
  destruct t as [|c t]; simpl; intros H; [reflexivity|].
  rewrite (H c) by now left. reflexivity.
Qed.

Lemma trim_free (t : jsstring) : free isWhiteSpace t -> trim t = t.
Proof.
  intros H. unfold trim. rewrite (trimStart_free H).
  rewrite trimStart_free, rev_involutive; [reflexivity|].
  intros c Hc. apply H. now apply in_rev.
Qed.

(** A code unit [splitUnitSeparator] cuts at. *)
Definition isSeparator (c : N) : bool := isWhiteSpace c || N.eqb c DOT.

Lemma isSeparator_false c :
  isSeparator c = false <-> isWhiteSpace c = false /\ N.eqb c DOT = false.
Proof. unfold isSeparator. apply orb_false_iff. Qed.

Lemma splitSeparator_nonempty b (t : jsstring) : splitSeparator b t <> [].
Proof.
  revert b; induction t as [|c t IH]; intros b; simpl; [discriminate|].
  destruct (isWhiteSpace c).
  - destruct b; [apply IH|discriminate].
  - destruct (N.eqb c DOT); [discriminate|].
    destruct (splitSeparator false t); discriminate.
Qed.

Lemma splitSeparator_parts b (t : jsstring) :
  Forall (fun part => free isSeparator part /\ incl part t)
         (splitSeparator b t).
Proof.
  revert b; induction t as [|c t IH]; intros b; simpl.
  - constructor; [|constructor]. split; [apply free_nil|apply incl_refl].
  - assert (Htl : forall b', Forall
              (fun part => free isSeparator part /\ incl part (c :: t))
              (splitSeparator b' t)).
    { intros b'. eapply Forall_impl; [|apply IH].
      intros part [Hf Hi]; split; [exact Hf|now apply incl_tl]. }
    destruct (isWhiteSpace c) eqn:Hws.
    + destruct b; [apply Htl|].
      constructor; [split; [apply free_nil|intros x []]|apply Htl].
    + destruct (N.eqb c DOT) eqn:Hdot.
      * constructor; [split; [apply free_nil|intros x []]|apply Htl].
      * specialize (IH false).
        pose proof (splitSeparator_nonempty false t) as Hne'.
        destruct (splitSeparator false t) as [|p ps]; [congruence|].
        inversion IH as [|? ? Hhd Hps]; subst. destruct Hhd as [Hf Hi].
        constructor.
        -- split.
           ++ apply free_cons; split; [|exact Hf].
              apply isSeparator_false; split; assumption.
           ++ intros x [<-|Hx]; [now left|right; now apply Hi].
        -- eapply Forall_impl; [|exact Hps].
           intros part [Hf' Hi']; split; [exact Hf'|now apply incl_tl].
Qed.

Lemma splitSeparator_token (t : jsstring) :
  free isSeparator t -> splitSeparator false t = [t].
Proof.
  induction t as [|c t IH]; simpl; intros H; [reflexivity|].
  apply free_cons in H as [Hc Ht]. apply isSeparator_false in Hc as [-> ->].
  rewrite IH by exact Ht. reflexivity.
Qed.

Lemma splitSeparator_app (a b : jsstring) :
  free isSeparator a ->
  splitSeparator false (a ++ DOT :: b) = a :: splitSeparator false b.
Proof.
  induction a as [|c a IH]; simpl; intros H.
  - reflexivity.
  - apply free_cons in H as [Hc Ha]. apply isSeparator_false in Hc as [-> ->].
    rewrite IH by exact Ha. reflexivity.
Qed.

(** Splitting what [join] glued gives the parts back. *)
Lemma splitSeparator_join (parts : list jsstring) :
  parts <> [] -> Forall (free isSeparator) parts ->
  splitUnitSeparator (join [DOT] parts) = parts.
Proof.
  unfold splitUnitSeparator.
  induction parts as [|p rest IH]; [congruence|]. intros _ Hall.
  inversion Hall as [|? ? Hp Hrest]; subst.
  destruct rest as [|q rest].
  - simpl. apply splitSeparator_token, Hp.
  - change (join [DOT] (p :: q :: rest))
      with (p ++ DOT :: join [DOT] (q :: rest)).
    rewrite splitSeparator_app by exact Hp.
    rewrite IH; [reflexivity|discriminate|exact Hrest].
Qed.

Lemma join_free P sep (parts : list jsstring) :
  free P sep -> Forall (free P) parts -> free P (join sep parts).
Proof.
  intros Hsep. induction parts as [|p rest IH]; intros Hall; [apply free_nil|].
  inversion Hall as [|? ? Hp Hrest]; subst.
  destruct rest as [|q rest]; [exact Hp|].
  change (join sep (p :: q :: rest)) with (p ++ sep ++ join sep (q :: rest)).
  apply free_app; split; [exact Hp|].
  apply free_app; split; [exact Hsep|apply IH, Hrest].
Qed.

End StringFacts.

(** ** Rounding to binary64 *)

Section RoundingFacts.

Local Open Scope Z_scope.

(** The integers that are binary64 values: below 2^1024 in size, and
    with at most 53 significant bits. *)
Definition representable (z : Z) : Prop :=
  Z.abs z < 2 ^ 1024 /\ (2 ^ Z.max 0 (Z.log2 (Z.abs z) - 52) | z).

Lemma nearestEven_exact c b : 0 < b -> nearestEven (c * b) b = c.
Proof.
  intros Hb. unfold nearestEven. rewrite Z.mod_mul, Z.div_mul by lia.
  destruct (Z.compare_spec (2 * 0) b); lia.
Qed.

Lemma nearestEven_bound a b T :
  0 <= a -> 0 < b -> a < b * T -> 0 <= nearestEven a b <= T.
Proof.
  intros Ha Hb Hlt. unfold nearestEven.
  assert (H0 : 0 <= a / b) by (apply Z.div_pos; lia).
  assert (H1 : a / b < T) by (apply Z.div_lt_upper_bound; lia).
  destruct (2 * (a mod b) ?= b); [destruct (Z.even (a / b))|..]; lia.
Qed.

Lemma pow2_pos k : 0 < 2 ^ k \/ k < 0.
Proof. destruct (Z.lt_ge_cases k 0); [right; lia|left; apply Z.pow_pos_nonneg; lia]. Qed.

Lemma pow2_split a b : 0 <= a -> 0 <= b -> 2 ^ (a + b) = 2 ^ a * 2 ^ b.
Proof. intros. apply Z.pow_add_r; assumption. Qed.

(** [n/d < 2^j] for every [j] above [floorLog2 n d], cleared of negative
    powers. *)
Lemma floorLog2_upper n d j :
  floorLog2 n d + 1 <= j ->
  (0 <= j -> Z.pos n < Z.pos d * 2 ^ j)
  /\ (j <= 0 -> Z.pos n * 2 ^ (- j) < Z.pos d).
Proof.
  unfold floorLog2.
  destruct (Z.log2_spec (Z.pos n)) as [Hn1 Hn2]; [lia|].
  destruct (Z.log2_spec (Z.pos d)) as [Hd1 Hd2]; [lia|].
  pose proof (Z.log2_nonneg (Z.pos n)) as Ln.
  pose proof (Z.log2_nonneg (Z.pos d)) as Ld.
  set (ln := Z.log2 (Z.pos n)) in *. set (ld := Z.log2 (Z.pos d)) in *.
  assert (Hk : forall k, ln - ld + 1 <= k \/
                 (0 <= ln - ld /\ Z.pos n < Z.pos d * 2 ^ (ln - ld) /\ ln - ld <= k) \/
                 (ln - ld < 0 /\ Z.pos n * 2 ^ (- (ln - ld)) < Z.pos d /\ ln - ld <= k) ->
               (0 <= k -> Z.pos n < Z.pos d * 2 ^ k)
               /\ (k <= 0 -> Z.pos n * 2 ^ (- k) < Z.pos d)).
  { intros k [H|[(H0 & Ht & H)|(H0 & Ht & H)]].
    - split; intros Hs.
      + assert (A : 2 ^ Z.succ ln <= 2 ^ (ld + k)) by (apply Z.pow_le_mono_r; lia).
        rewrite pow2_split in A by lia.
        assert (B : 0 < 2 ^ k) by (apply Z.pow_pos_nonneg; lia). nia.
      + assert (B : 0 < 2 ^ (- k)) by (apply Z.pow_pos_nonneg; lia).
        assert (A : 2 ^ (Z.succ ln + - k) <= 2 ^ ld) by (apply Z.pow_le_mono_r; lia).
        rewrite pow2_split in A by lia. nia.
    - split; intros Hs.
      + assert (A : 2 ^ (ln - ld) <= 2 ^ k) by (apply Z.pow_le_mono_r; lia). nia.
      + assert (k = 0) by lia. subst k. assert (ln - ld = 0) by lia.
        replace (ln - ld) with 0 in Ht by lia. simpl in *. lia.
    - split; intros Hs.
      + assert (A : 0 < 2 ^ (- (ln - ld))) by (apply Z.pow_pos_nonneg; lia).
        assert (B : 0 < 2 ^ k) by (apply Z.pow_pos_nonneg; lia). nia.
      + assert (A : 2 ^ (- k) <= 2 ^ (- (ln - ld))) by (apply Z.pow_le_mono_r; lia). nia. }
  intros Hj. apply Hk.
  destruct (Z.leb_spec 0 (ln - ld)).
  - destruct (Z.leb_spec (Z.pos d * 2 ^ (ln - ld)) (Z.pos n)); [left; lia|].
    right; left. lia.
  - destruct (Z.leb_spec (Z.pos d) (Z.pos n * 2 ^ (- (ln - ld)))); [left; lia|].
    right; right. lia.
Qed.

Lemma floorLog2_one p : floorLog2 p 1 = Z.log2 (Z.pos p).
Proof.
  unfold floorLog2. change (Z.log2 1) with 0. rewrite Z.sub_0_r.
  pose proof (Z.log2_nonneg (Z.pos p)).
  destruct (Z.log2_spec (Z.pos p)) as [H1 _]; [lia|].
  destruct (Z.leb_spec 0 (Z.log2 (Z.pos p))); [|lia].
  destruct (Z.leb_spec (1 * 2 ^ Z.log2 (Z.pos p)) (Z.pos p)); lia.
Qed.

Lemma integerValue_opp r :
  integerValue (Finite (- r)) = option_map Z.opp (integerValue (Finite r)).
Proof.
  destruct r as [a b]. simpl.
  destruct (Z.eqb_spec (a mod Z.pos b) 0) as [H|H].
  - rewrite Z.mod_opp_l_z by lia. simpl. rewrite Z.div_opp_l_z by lia. reflexivity.
  - destruct (Z.eqb_spec (- a mod Z.pos b) 0) as [H'|H']; [|reflexivity].
    exfalso. apply H. rewrite <- (Z.opp_involutive a).
    apply Z.mod_opp_l_z; lia.
Qed.

Lemma integerValue_inject_Z z : integerValue (Finite (inject_Z z)) = Some z.
Proof.
  unfold integerValue, inject_Z. cbn [Qnum Qden].
  rewrite Z.mod_1_r, Z.div_1_r. reflexivity.
Qed.

Lemma representable_0 : representable 0.
Proof. split; [reflexivity|]. exists 0. reflexivity. Qed.

Lemma representable_opp z : representable z -> representable (- z).
Proof.
  unfold representable. rewrite Z.abs_opp. intros [H1 H2]. split; [exact H1|].
  now apply Z.divide_opp_r.
Qed.

Lemma representable_abs z : representable z -> representable (Z.abs z).
Proof.
  intros H. destruct (Z.abs_eq_or_opp z) as [-> | ->]; [exact H|].
  now apply representable_opp.
Qed.

Lemma log2_le_53 m : 0 < m <= 2 ^ 53 -> Z.log2 m <= 52 \/ m = 2 ^ 53.
Proof.
  intros [H0 H1]. destruct (Z.eq_dec m (2 ^ 53)) as [E|E]; [right; exact E|left].
  assert (Z.log2 m < 53); [|lia]. apply Z.log2_lt_pow2; lia.
Qed.

Lemma pow2_divide j e m : 0 <= j <= e -> (2 ^ j | m * 2 ^ e).
Proof.
  intros H. exists (m * 2 ^ (e - j)).
  rewrite <- Z.mul_assoc, <- pow2_split by lia. f_equal. f_equal. lia.
Qed.

Lemma representable_dyadic m e :
  0 <= m <= 2 ^ 53 -> 0 <= e -> m * 2 ^ e < 2 ^ 1024 -> representable (m * 2 ^ e).
Proof.
  intros Hm He Hlt.
  assert (Hp : 0 < 2 ^ e) by (apply Z.pow_pos_nonneg; lia).
  destruct (Z.eq_dec m 0) as [->|Hm0]; [exact representable_0|].
  unfold representable. rewrite Z.abs_eq by nia. split; [exact Hlt|].
  rewrite Z.log2_mul_pow2 by lia.
  assert (Hm' : 0 < m <= 2 ^ 53) by lia.
  destruct (@log2_le_53 m Hm') as [Hl|Hl].
  - pose proof (Z.log2_nonneg m). apply pow2_divide. lia.
  - subst m. change (Z.log2 (2 ^ 53)) with 53.
    replace (Z.max 0 (e + 53 - 52)) with (e + 1) by lia.
    exists (2 ^ 52). rewrite <- !pow2_split by lia. f_equal. lia.
Qed.

Lemma representable_small z : Z.abs z <= 2 ^ 53 -> representable z.
Proof.
  intros H.
  assert (R : representable (Z.abs z)).
  { replace (Z.abs z) with (Z.abs z * 2 ^ 0) by (simpl; lia).
    apply representable_dyadic; simpl; lia. }
  destruct (Z.abs_eq_or_opp z) as [E|E]; rewrite E in R; [exact R|].
  apply representable_opp in R. now rewrite Z.opp_involutive in R.
Qed.

Lemma binary64Pos_integer n d r z :
  binary64Pos n d = Some r -> integerValue (Finite r) = Some z -> 0 <= z /\ representable z.
Proof.
  unfold binary64Pos.
  set (e := Z.max (floorLog2 n d - 52) (-1074)).
  assert (He : floorLog2 n d + 1 <= e + 53) by lia.
  destruct (@floorLog2_upper n d (e + 53) He) as [U1 U2].
  destruct (Z.leb_spec 0 e) as [H0|H0].
  - assert (Hp : 0 < 2 ^ e) by (apply Z.pow_pos_nonneg; lia).
    assert (B : 0 <= nearestEven (Z.pos n) (Z.pos d * 2 ^ e) <= 2 ^ 53).
    { apply nearestEven_bound; [lia|nia|].
      rewrite <- Z.mul_assoc, <- pow2_split by lia. apply U1. lia. }
    set (m := nearestEven (Z.pos n) (Z.pos d * 2 ^ e)) in *.
    destruct (Z.leb_spec (2 ^ 1024) (m * 2 ^ e)); [discriminate|].
    intros E; injection E as <-. rewrite integerValue_inject_Z.
    intros E; injection E as <-. split; [apply Z.mul_nonneg_nonneg; lia|].
    apply representable_dyadic; assumption.
  - assert (Hp : 0 < 2 ^ (- e)) by (apply Z.pow_pos_nonneg; lia).
    assert (B : 0 <= nearestEven (Z.pos n * 2 ^ (- e)) (Z.pos d) <= 2 ^ 53).
    { apply nearestEven_bound; [nia|lia|].
      destruct (Z.le_gt_cases 0 (e + 53)) as [Hs|Hs].
      - specialize (U1 Hs).
        assert (2 ^ (e + 53) * 2 ^ (- e) = 2 ^ 53)
          by (rewrite <- pow2_split by lia; f_equal; lia).
        nia.
      - assert (Hs' : e + 53 <= 0) by lia. specialize (U2 Hs').
        assert (A : 2 ^ (- e) = 2 ^ (- (e + 53)) * 2 ^ 53)
          by (rewrite <- pow2_split by lia; f_equal; lia).
        rewrite A. assert (0 < 2 ^ 53) by reflexivity. nia. }
    set (m := nearestEven (Z.pos n * 2 ^ (- e)) (Z.pos d)) in *.
    intros E; injection E as <-. unfold integerValue.
    cbn [Qnum Qden]. rewrite Z2Pos.id by exact Hp.
    destruct (Z.eqb_spec (m mod 2 ^ (- e)) 0); [|discriminate].
    intros E; injection E as <-.
    assert (0 <= m / 2 ^ (- e) <= m).
    { split; [apply Z.div_pos; lia|]. apply Z.div_le_upper_bound; nia. }
    split; [lia|]. apply representable_small. lia.
Qed.

Lemma binary64_integer q z :
  integerValue (binary64 q) = Some z -> representable z.
Proof.
  unfold binary64. destruct (Qnum q) as [|n|n].
  - intros E. vm_compute in E. injection E as <-. exact representable_0.
  - destruct (binary64Pos n (Qden q)) as [r|] eqn:Hr; [|discriminate].
    intros E. now destruct (@binary64Pos_integer _ _ _ _ Hr E).
  - destruct (binary64Pos n (Qden q)) as [r|] eqn:Hr; [|discriminate].
    rewrite integerValue_opp.
    destruct (integerValue (Finite r)) as [z'|] eqn:E; [|discriminate].
    intros E'; injection E' as <-. apply representable_opp.
    now destruct (@binary64Pos_integer _ _ _ _ Hr E).
Qed.

Lemma binary64Pos_representable p :
  representable (Z.pos p) ->
  exists r, binary64Pos p 1 = Some r /\ integerValue (Finite r) = Some (Z.pos p).
Proof.
  intros [Hlt Hdiv]. unfold binary64Pos. rewrite floorLog2_one.
  change (Z.abs (Z.pos p)) with (Z.pos p) in *.
  pose proof (Z.log2_nonneg (Z.pos p)) as Hl.
  set (L := Z.log2 (Z.pos p)) in *.
  replace (Z.max (L - 52) (-1074)) with (L - 52) by lia.
  destruct (Z.leb_spec 0 (L - 52)) as [H0|H0].
  - replace (Z.max 0 (L - 52)) with (L - 52) in Hdiv by lia.
    destruct Hdiv as [c Hc].
    assert (Hp : 0 < 2 ^ (L - 52)) by (apply Z.pow_pos_nonneg; lia).
    assert (Hm : nearestEven (Z.pos p) (1 * 2 ^ (L - 52)) = c).
    { rewrite Z.mul_1_l, Hc. apply nearestEven_exact. exact Hp. }
    rewrite Hm, <- Hc. destruct (Z.leb_spec (2 ^ 1024) (Z.pos p)); [lia|].
    eexists; split; [reflexivity|]. apply integerValue_inject_Z.
  - assert (Hp : 0 < 2 ^ (- (L - 52))) by (apply Z.pow_pos_nonneg; lia).
    eexists; split; [reflexivity|]. unfold integerValue. cbn [Qnum Qden].
    rewrite Z2Pos.id by exact Hp.
    replace (nearestEven (Z.pos p * 2 ^ (- (L - 52))) 1) with (Z.pos p * 2 ^ (- (L - 52))).
    + rewrite Z.mod_mul, Z.div_mul by lia. reflexivity.
    + symmetry. rewrite <- (Z.mul_1_r (Z.pos p * _)) at 1. apply nearestEven_exact. lia.
Qed.

Lemma binary64_representable z :
  representable z -> integerValue (binary64 (inject_Z z)) = Some z.
Proof.
  intros H. unfold binary64. cbn [Qnum Qden inject_Z]. destruct z as [|p|p].
  - reflexivity.
  - destruct (@binary64Pos_representable p H) as (r & -> & E). exact E.
  - apply representable_opp in H. change (- Z.neg p) with (Z.pos p) in H.
    destruct (@binary64Pos_representable p H) as (r & -> & E).
    rewrite integerValue_opp, E. reflexivity.
Qed.

End RoundingFacts.

(** ** Numerals *)

Section NumeralFacts.

(** Decides the comparisons of a code unit against constants, from range
    facts in the context. *)
Ltac code_cases :=
  repeat match goal with
    | |- context [N.leb ?a ?b] => destruct (N.leb_spec a b)
    | |- context [N.eqb ?a ?b] => destruct (N.eqb_spec a b)
    | H : context [N.leb ?a ?b] |- _ => destruct (N.leb_spec a b)
    | H : context [N.eqb ?a ?b] |- _ => destruct (N.eqb_spec a b)
    end;
  simpl in *; try reflexivity; try discriminate; try lia.

Lemma isDigit_range c : isDigit c = true <-> (48 <= c <= 57)%N.
Proof. unfold isDigit. split; intros H; code_cases. Qed.

Lemma digit_not_white c : isDigit c = true -> isWhiteSpace c = false.
Proof.
  intros H. apply isDigit_range in H. unfold isWhiteSpace. code_cases.
Qed.

Definition digits (t : jsstring) : Prop := Forall (fun c => isDigit c = true) t.

Lemma digits_cons c t : digits (c :: t) <-> isDigit c = true /\ digits t.
Proof. apply Forall_cons_iff. Qed.

Lemma codes_of_uint_digits u : digits (codes_of_uint u).
Proof. induction u; simpl; constructor; try reflexivity; assumption. Qed.

Lemma uint_of_codes_of_uint u : uint_of_codes (codes_of_uint u) = u.
Proof. induction u; simpl; try reflexivity; now f_equal. Qed.

Lemma codes_of_uint_nil u : codes_of_uint u = [] -> u = Nil.
Proof. destruct u; simpl; congruence. Qed.

Lemma spanDigits_all t : digits t -> spanDigits t = (t, []).
Proof.
  induction 1 as [|c t Hc _ IH]; simpl; [reflexivity|].
  rewrite Hc, IH. reflexivity.
Qed.

Lemma nonDecimal_digits t : digits t -> nonDecimal t = None.
Proof.
  intros H. destruct t as [|c0 t]; [reflexivity|].
  destruct (N.eqb_spec c0 48) as [->|Hne].
  - destruct t as [|c1 [|c2 t]]; try reflexivity.
    apply digits_cons in H as [_ H1]. apply digits_cons in H1 as [Hc1 _].
    apply isDigit_range in Hc1. unfold nonDecimal.
    replace ((c1 =? 120) || (c1 =? 88))%N with false by code_cases.
    replace ((c1 =? 111) || (c1 =? 79))%N with false by code_cases.
    replace ((c1 =? 98) || (c1 =? 66))%N with false by code_cases.
    reflexivity.
  - destruct c0 as [|p]; [reflexivity|].
    do 6 (destruct p; try reflexivity). congruence.
Qed.

Lemma unsignedDecimal_digits t :
  t <> [] -> digits t ->
  unsignedDecimal t = Some (inject_Z (digitsValue t) * 1)%Q.
Proof.
  intros Hne H. unfold unsignedDecimal. rewrite (spanDigits_all H).
  destruct t as [|c t]; [congruence|]. simpl exponentPart. cbv iota beta.
  rewrite app_nil_r. reflexivity.
Qed.

Lemma strDecimal_digits t :
  t <> [] -> digits t ->
  strDecimal t = Finite (inject_Z (digitsValue t) * 1)%Q.
Proof.
  intros Hne H. pose proof (unsignedDecimal_digits Hne H) as Hu.
  destruct t as [|c t]; [congruence|].
  pose proof H as H'. apply digits_cons in H' as [Hc _].
  apply isDigit_range in Hc. unfold strDecimal.
  destruct c as [|p]; [lia|].
  do 6 (destruct p; try lia);
    cbv beta iota; change (str_eqb _ INFINITY) with false; cbv iota;
    rewrite Hu; reflexivity.
Qed.

Lemma integerValue_inject z : integerValue (Finite (inject_Z z * 1)) = Some z.
Proof.
  unfold integerValue. simpl. rewrite Z.mul_1_r, Z.mod_1_r. simpl.
  rewrite Z.div_1_r. reflexivity.
Qed.

Lemma integerValue_inject_opp z :
  integerValue (Finite (- (inject_Z z * 1))) = Some (- z)%Z.
Proof.
  unfold integerValue. simpl. rewrite Z.mul_1_r, Z.mod_1_r. simpl.
  rewrite Z.div_1_r. reflexivity.
Qed.

Lemma digitsValue_to_uint p :
  digitsValue (codes_of_uint (Pos.to_uint p)) = Z.pos p.
Proof.
  unfold digitsValue. rewrite uint_of_codes_of_uint.
  change (N.of_uint (Pos.to_uint p)) with (Pos.of_uint (Pos.to_uint p)).
  rewrite DecimalPos.Unsigned.of_to. reflexivity.
Qed.

Lemma to_uint_codes_nonempty p : codes_of_uint (Pos.to_uint p) <> [].
Proof.
  intros E. apply codes_of_uint_nil in E.
  exact (DecimalPos.Unsigned.to_uint_nonnil p E).
Qed.

(** The characters of a printed integer. *)
Definition numeralChar (c : N) : bool := isDigit c || N.eqb c 45.

Lemma numToString_chars z : Forall (fun c => numeralChar c = true) (numToString z).
Proof.
  assert (D : forall u, Forall (fun c => numeralChar c = true) (codes_of_uint u)).
  { intros u. eapply Forall_impl; [|apply codes_of_uint_digits].
    intros c Hc. unfold numeralChar. simpl in Hc. rewrite Hc. reflexivity. }
  unfold numToString. destruct (Z.to_int z); [apply D|].
  constructor; [reflexivity|apply D].
Qed.

Lemma numeralChar_not_white c : numeralChar c = true -> isWhiteSpace c = false.
Proof.
  unfold numeralChar. intros H. apply orb_true_iff in H as [H|H].
  - now apply digit_not_white.
  - apply N.eqb_eq in H as ->. reflexivity.
Qed.

Lemma numToString_free_white z : free isWhiteSpace (numToString z).
Proof.
  intros c Hc. apply numeralChar_not_white.
  pose proof (numToString_chars z) as H.
  rewrite Forall_forall in H. now apply H.
Qed.

(** Reading back a printed integer: its mathematical value, and its
    Number value when the integer is a binary64 value. *)
Lemma Qmult_inject_1 z : (inject_Z z * 1)%Q = inject_Z z.
Proof.
  unfold Qmult, inject_Z. cbn [Qnum Qden]. rewrite Z.mul_1_r. reflexivity.
Qed.

Lemma mathematicalValue_numToString z :
  mathematicalValue (numToString z) = Finite (inject_Z z).
Proof.
  unfold mathematicalValue. rewrite (trim_free (@numToString_free_white z)).
  destruct z as [|p|p].
  - reflexivity.
  - unfold numToString. simpl Z.to_int.
    pose proof (to_uint_codes_nonempty p) as Hne.
    pose proof (codes_of_uint_digits (Pos.to_uint p)) as Hd.
    destruct (codes_of_uint (Pos.to_uint p)) as [|c t] eqn:E; [congruence|].
    rewrite (nonDecimal_digits Hd), (strDecimal_digits Hne Hd).
    rewrite <- E, digitsValue_to_uint, Qmult_inject_1. reflexivity.
  - unfold numToString. simpl Z.to_int.
    pose proof (to_uint_codes_nonempty p) as Hne.
    pose proof (codes_of_uint_digits (Pos.to_uint p)) as Hd.
    cbv iota beta.
    assert (Hnd : nonDecimal (45%N :: codes_of_uint (Pos.to_uint p)) = None)
      by reflexivity.
    rewrite Hnd. unfold strDecimal.
    replace (str_eqb (codes_of_uint (Pos.to_uint p)) INFINITY) with false.
    + rewrite (unsignedDecimal_digits Hne Hd).
      rewrite digitsValue_to_uint, Qmult_inject_1. reflexivity.
    + symmetry. apply str_eqb_neq. intros E.
      rewrite E in Hd. apply digits_cons in Hd as [Hc _]. discriminate.
Qed.

Lemma Number_numToString z :
  representable z -> integerValue (Number (numToString z)) = Some z.
Proof.
  intros H. unfold Number. rewrite mathematicalValue_numToString.
  now apply binary64_representable.
Qed.

(** What [Number] returns as an integer is a binary64 value. *)
Lemma Number_integer s z : integerValue (Number s) = Some z -> representable z.
Proof.
  unfold Number. destruct (mathematicalValue s) as [| |q]; try discriminate.
  apply binary64_integer.
Qed.

End NumeralFacts.

(* ================================================================= *)
(** ** Dimensions *)

Module DimFacts.

Import Dim.

Section Every.

Context {A : Type} (eqb : A -> A -> bool).
Hypothesis eqb_eq : forall x y, eqb x y = true <-> x = y.

(** The callback of [equalTo]: compare with the element of [other] at
    the same index. *)
Definition sameAt (other : list A) (x : A) (i : nat) : bool :=
  match nth_error other i with
  | Some y => eqb x y
  | None => false
  end.

Lemma everyFrom_sameAt (pre l l' : list A) :
  length l = length l' ->
  (everyFrom (sameAt (pre ++ l')) (length pre) l = true <-> l = l').
Proof.
  revert pre l'. induction l as [|x l IH]; intros pre [|y l']; simpl;
    try discriminate.
  - intros _. split; reflexivity.
  - intros Hlen. injection Hlen as Hlen.
    unfold sameAt at 1. rewrite nth_error_app2, Nat.sub_diag by lia. simpl.
    rewrite andb_true_iff, eqb_eq.
    replace (pre ++ y :: l') with ((pre ++ [y]) ++ l')
      by (rewrite <- app_assoc; reflexivity).
    replace (S (length pre)) with (length (pre ++ [y]))
      by (rewrite length_app; simpl; lia).
    rewrite (IH (pre ++ [y]) l' Hlen).
    split; [intros [-> ->]; reflexivity|intros E; injection E; auto].
Qed.

Lemma every_sameAt (l l' : list A) :
  length l = length l' -> (every (sameAt l') l = true <-> l = l').
Proof. intros H. apply (everyFrom_sameAt [] l l' H). Qed.

End Every.

Lemma Zeqb_iff (x y : Z) : (x =? y)%Z = true <-> x = y.
Proof. apply Z.eqb_eq. Qed.

(** [equalTo] unfolded into its five conjuncts. *)
Lemma equalTo_unfold (this other : Dimensions) :
  equalTo this other =
  (Qeq_bool (offset other) (offset this)
   && (length (dimensions this) =? length (dimensions other))
   && every (sameAt Z.eqb (dimensions other)) (dimensions this)
   && sameLength (customDimensionNames this) (customDimensionNames other)
   && match customDimensionNames this with
      | None => true
      | Some names =>
          match customDimensionNames other with
          | Some onames => every (sameAt str_eqb onames) names
          | None => every (fun _ _ => false) names
          end
      end).
Proof.
  unfold equalTo. f_equal.
  destruct (customDimensionNames this) as [names|]; [|reflexivity].
  destruct (customDimensionNames other); reflexivity.
Qed.

(** C8. [a.equalTo(b)] holds exactly when the exponent vectors are equal
    element by element, the custom-name lists are equal, and the offsets
    are equal (as numbers). *)
Theorem equalTo_iff (a b : Dimensions) :
  equalTo a b = true <->
  dimensions a = dimensions b
  /\ customDimensionNames a = customDimensionNames b
  /\ (offset a == offset b)%Q.
Proof.
  rewrite equalTo_unfold, !andb_true_iff, Qeq_bool_iff, Nat.eqb_eq.
  split.
  - intros [[[[Hoff Hlen] Hdims] Hsame] Hnames].
    apply (every_sameAt Z.eqb Zeqb_iff _ _ Hlen) in Hdims.
    split; [exact Hdims|]. split; [|symmetry; exact Hoff].
    destruct (customDimensionNames a) as [na|], (customDimensionNames b) as [nb|];
      simpl in Hsame; try discriminate; [|reflexivity].
    apply Nat.eqb_eq in Hsame.
    apply (every_sameAt str_eqb str_eqb_eq _ _ Hsame) in Hnames.
    now subst.
  - intros (Hdims & Hnames & Hoff). rewrite Hdims, Hnames.
    repeat split.
    + symmetry; exact Hoff.
    + apply (every_sameAt Z.eqb Zeqb_iff); reflexivity.
    + destruct (customDimensionNames b); simpl; [apply Nat.eqb_refl|reflexivity].
    + destruct (customDimensionNames b) as [nb|]; [|reflexivity].
      apply (every_sameAt str_eqb str_eqb_eq); reflexivity.
Qed.

(** *** The constructor *)

(** Strictly ascending, neighbour by neighbour. *)
Definition ascending (names : list jsstring) : Prop :=
  Sorted (fun x y => str_ltb x y = true) names.

Definition afterPrevious (names : list jsstring) (v : jsstring) (i : nat) : bool :=
  match i with
  | O => true
  | S j => match nth_error names j with
           | Some prev => str_ltb prev v
           | None => false
           end
  end.

Lemma everyFrom_afterPrevious (pre : list jsstring) x l :
  everyFrom (afterPrevious (pre ++ x :: l)) (S (length pre)) l = true
  <-> ascending (x :: l).
Proof.
  revert pre x. induction l as [|y l IH]; intros pre x; simpl.
  - split; [intros _; repeat constructor|reflexivity].
  - rewrite nth_error_app2, Nat.sub_diag by lia. simpl.
    rewrite andb_true_iff.
    replace (pre ++ x :: y :: l) with ((pre ++ [x]) ++ y :: l)
      by (rewrite <- app_assoc; reflexivity).
    replace (S (S (length pre))) with (S (length (pre ++ [x])))
      by (rewrite length_app; simpl; lia).
    rewrite IH. unfold ascending. split.
    + intros [Hxy Hs]. constructor; [exact Hs|constructor; exact Hxy].
    + intros Hs. inversion Hs as [|? ? Hs' Hhd]; subst.
      inversion Hhd; subst. split; assumption.
Qed.

Lemma isSorted_iff names : isSorted names = true <-> ascending names.
Proof.
  unfold isSorted, every. destruct names as [|x l].
  - simpl. split; [intros _; constructor|reflexivity].
  - change (everyFrom _ 0 (x :: l))
      with (true && everyFrom (afterPrevious ([] ++ x :: l)) (S (length (@nil jsstring))) l).
    simpl andb. apply (everyFrom_afterPrevious [] x l).
Qed.

(** Ascending names are pairwise distinct. *)
Lemma ascending_NoDup names : ascending names -> NoDup names.
Proof.
  intros H. apply Sorted_StronglySorted in H.
  - induction H as [|x l Hs IH Hall]; constructor; [|exact IH].
    intros Hin. rewrite Forall_forall in Hall.
    specialize (Hall x Hin). rewrite str_ltb_irrefl in Hall. discriminate.
  - intros x y z. apply str_ltb_trans.
Qed.

Definition namesOf (names : option (list jsstring)) : list jsstring :=
  match names with Some ns => ns | None => [] end.

(** What the constructor accepts. *)
Definition accepted (dims : list Z) (names : option (list jsstring)) : Prop :=
  8 <= length dims
  /\ length dims = 8 + length (namesOf names)
  /\ ascending (namesOf names).

(** C7, as the constructor has it.  [new Dimensions(dims, names, off)]
    succeeds exactly when the vector has at least 8 entries, as many as 8
    plus the number of custom names, and the names ascend strictly (so no
    name is repeated); a failure is an InvalidDimensions error.  The
    constructor sets no upper bound: the cap of 12 entries and 4 names is
    only the static tuple type of its parameters. *)
Theorem new_accepted (dims : list Z) (names : option (list jsstring)) (off : Q) :
  match Dim.new dims names off with
  | Ok d => accepted dims names /\ d = mkDimensions dims names off
  | Err e => ~ accepted dims names /\ kind e = InvalidDimensions
  end
  /\ NoDup (if succeeds (Dim.new dims names off) then namesOf names else []).
Proof.
  assert (Hmain : match Dim.new dims names off with
                  | Ok d => accepted dims names /\ d = mkDimensions dims names off
                  | Err e => ~ accepted dims names /\ kind e = InvalidDimensions
                  end).
  { unfold Dim.new, accepted, numBasicDimensions.
    destruct (Nat.ltb_spec (length dims) 8) as [Hlt|Hge].
    { split; [lia|reflexivity]. }
    replace (match names with Some ns => length ns | None => 0 end)
      with (length (namesOf names)) by (destruct names; reflexivity).
    destruct (Nat.eqb_spec (length dims) (8 + length (namesOf names)))
      as [Heq|Hneq]; simpl.
    2:{ split; [tauto|reflexivity]. }
    destruct names as [ns|]; simpl.
    - destruct (isSorted ns) eqn:Hs; simpl.
      + apply isSorted_iff in Hs. repeat split; assumption.
      + split; [|reflexivity]. intros (_ & _ & Ha).
        apply isSorted_iff in Ha. simpl in Ha. congruence.
    - repeat split; try assumption. constructor. }
  split; [exact Hmain|].
  destruct (Dim.new dims names off); simpl; [|constructor].
  apply ascending_NoDup. apply Hmain.
Qed.

(** C7 as stated fails: thirteen exponents with five ascending names are
    accepted, above the stated length of 8 to 12. *)
Lemma new_thirteen_exponents :
  succeeds (Dim.new (repeat 0%Z 13)
              (Some [js "a"; js "b"; js "c"; js "d"; js "e"]) 0) = true
  /\ ~ (8 <= length (repeat 0%Z 13) <= 12).
Proof. split; [reflexivity|simpl; lia]. Qed.

End DimFacts.

(* ================================================================= *)
(** ** Parsing one unit *)

Module ParseFacts.

Import Units.

(** The three steps of [parseSingleUnit], named. *)

Definition unitsOf (additionalUnits : option (table Unit)) : table Unit :=
  match additionalUnits with
  | Some au => spread builtInUnits au
  | None => builtInUnits
  end.

(** [prefixedUnit]: the token up to its first caret. *)
Definition base (unitStr : jsstring) : jsstring :=
  if (indexOf unitStr CARET =? -1)%Z then unitStr
  else substring unitStr 0 (indexOf unitStr CARET).

(** [power] before the check. *)
Definition exponent (unitStr : jsstring) : number :=
  if (indexOf unitStr CARET =? -1)%Z then Finite 1
  else Number (substringFrom unitStr (indexOf unitStr CARET + 1)).

(** The cascade on [prefixedUnit]: prefix and unit, or nothing. *)
Definition resolve (units : table Unit) (prefixedUnit : jsstring)
  : option (option jsstring * jsstring) :=
  if has prefixedUnit units then Some (None, prefixedUnit)
  else if startsWithUnderscore prefixedUnit then Some (None, prefixedUnit)
  else if has (firstUnit prefixedUnit) prefixes
          && flag prefixable units (substringFrom prefixedUnit 1)
       then Some (Some (firstUnit prefixedUnit), substringFrom prefixedUnit 1)
  else if has (substring prefixedUnit 0 2) prefixes
          && flag binaryPrefixable units (substringFrom prefixedUnit 2)
       then Some (Some (substring prefixedUnit 0 2), substringFrom prefixedUnit 2)
  else None.

Definition badExponent (x : number) : bool := isZero x || negb (isInteger x).

Definition powerOf (x : number) : Z :=
  match integerValue x with Some z => z | None => 0%Z end.

Lemma parseSingleUnit_steps unitStr additionalUnits :
  parseSingleUnit unitStr additionalUnits =
  if badExponent (exponent unitStr) then Err (InvalidPower unitStr)
  else match resolve (unitsOf additionalUnits) (base unitStr) with
       | Some (pre, u) => Ok (mkParsedUnit pre u (powerOf (exponent unitStr)))
       | None => Err (UnableToParse unitStr)
       end.
Proof.
  unfold parseSingleUnit, resolve, badExponent, powerOf, exponent, base, unitsOf.
  destruct (isZero _ || negb (isInteger _)); [reflexivity|].
  destruct (has _ (match additionalUnits with Some _ => _ | None => _ end));
    [reflexivity|].
  destruct (startsWithUnderscore _); [reflexivity|].
  destruct (has (firstUnit _) prefixes && _); [reflexivity|].
  destruct (has (substring _ 0 2) prefixes && _); reflexivity.
Qed.

(** *** The exponent *)

(** A number that is an integer other than zero. *)
Definition nonzeroInteger (x : number) : Prop :=
  exists z q, z <> 0%Z /\ x = Finite q /\ (q == inject_Z z)%Q.

Lemma integerValue_Some x z :
  integerValue x = Some z <-> exists q, x = Finite q /\ (q == inject_Z z)%Q.
Proof.
  destruct x as [| |q]; simpl.
  - split; [discriminate|intros (q & E & _); discriminate].
  - split; [discriminate|intros (q & E & _); discriminate].
  - destruct q as [n d]. unfold Qeq. simpl.
    destruct (Z.eqb_spec (n mod Z.pos d) 0) as [Hm|Hm].
    + split.
      * intros E; injection E as <-. eexists; split; [reflexivity|]. simpl.
        pose proof (Z.div_mod n (Z.pos d)) as Hd. lia.
      * intros (q & E & Hq). injection E as <-. simpl in Hq. f_equal.
        rewrite Z.mul_1_r in Hq. rewrite Hq. apply Z.div_mul. lia.
    + split; [discriminate|].
      intros (q & E & Hq). injection E as <-. simpl in Hq.
      rewrite Z.mul_1_r in Hq. exfalso. apply Hm. rewrite Hq.
      apply Z.mod_mul. lia.
Qed.

Lemma isZero_integerValue x z :
  integerValue x = Some z -> isZero x = (z =? 0)%Z.
Proof.
  intros H. apply integerValue_Some in H as (q & -> & Hq).
  destruct q as [n d]. unfold Qeq in Hq. simpl in *.
  rewrite Z.mul_1_r in Hq. subst n.
  destruct (Z.eqb_spec z 0) as [->|Hz]; [reflexivity|].
  apply Z.eqb_neq. nia.
Qed.

Lemma badExponent_false x :
  badExponent x = false <-> nonzeroInteger x.
Proof.
  unfold badExponent, isInteger, nonzeroInteger. split.
  - intros H. apply orb_false_iff in H as [Hz Hi].
    destruct (integerValue x) as [z|] eqn:E; [|discriminate].
    rewrite (isZero_integerValue _ E) in Hz. apply Z.eqb_neq in Hz.
    apply integerValue_Some in E as (q & -> & Hq).
    exists z, q. repeat split; assumption.
  - intros (z & q & Hz & -> & Hq).
    assert (E : integerValue (Finite q) = Some z)
      by (apply integerValue_Some; eexists; split; [reflexivity|exact Hq]).
    rewrite (isZero_integerValue _ E), E.
    apply Z.eqb_neq in Hz. rewrite Hz. reflexivity.
Qed.

Lemma powerOf_nonzero x : badExponent x = false -> powerOf x <> 0%Z.
Proof.
  unfold badExponent, isInteger, powerOf. intros H.
  apply orb_false_iff in H as [Hz Hi].
  destruct (integerValue x) as [z|] eqn:E; [|discriminate].
  rewrite (isZero_integerValue _ E) in Hz. now apply Z.eqb_neq in Hz.
Qed.

(** The token without, and with, a caret. *)
Lemma caret_absent unitStr :
  ~ In CARET unitStr -> base unitStr = unitStr /\ exponent unitStr = Finite 1.
Proof.
  intros H. apply indexOf_absent in H. unfold base, exponent.
  rewrite H. split; reflexivity.
Qed.

Lemma caret_present name suffix :
  ~ In CARET name ->
  base (name ++ CARET :: suffix) = name
  /\ exponent (name ++ CARET :: suffix) = Number suffix.
Proof.
  intros H. unfold base, exponent. rewrite !indexOf_app by exact H.
  destruct (Z.eqb_spec (Z.of_nat (length name)) (-1)); [lia|].
  rewrite substring_prefix. split; [reflexivity|].
  replace (Z.of_nat (length name) + 1)%Z
    with (Z.of_nat (length (name ++ [CARET])))
    by (rewrite length_app; simpl; lia).
  replace (name ++ CARET :: suffix) with ((name ++ [CARET]) ++ suffix)
    by (rewrite <- app_assoc; reflexivity).
  rewrite substringFrom_suffix; reflexivity.
Qed.

Lemma caret_cases unitStr :
  ~ In CARET unitStr
  \/ exists name suffix, unitStr = name ++ CARET :: suffix /\ ~ In CARET name.
Proof.
  destruct (Z.eq_dec (indexOf unitStr CARET) (-1)) as [E|E].
  - left. now apply indexOf_absent.
  - right. apply indexOf_split in E as (a & b & -> & Hn & _).
    exists a, b. split; [reflexivity|exact Hn].
Qed.

Lemma base_incl unitStr : incl (base unitStr) unitStr /\ ~ In CARET (base unitStr).
Proof.
  destruct (caret_cases unitStr) as [H|(name & suffix & -> & H)].
  - destruct (caret_absent unitStr H) as [-> _]. split; [apply incl_refl|exact H].
  - destruct (caret_present name suffix H) as [-> _].
    split; [apply incl_appl, incl_refl|exact H].
Qed.

(** *** The unit name *)

Lemma undefined_not_prefix : has (js "undefined") prefixes = false.
Proof. vm_compute. reflexivity. Qed.

(** A resolved name is its prefix followed by its unit. *)
Lemma resolve_name units p pre u :
  resolve units p = Some (pre, u) ->
  match pre with Some x => x | None => [] end ++ u = p.
Proof.
  unfold resolve.
  destruct (has p units); [intros E; injection E as <- <-; reflexivity|].
  destruct (startsWithUnderscore p); [intros E; injection E as <- <-; reflexivity|].
  destruct (has (firstUnit p) prefixes && _) eqn:H1.
  { intros E; injection E as <- <-.
    destruct p as [|c r].
    - simpl firstUnit in H1. rewrite undefined_not_prefix in H1. discriminate.
    - change 1%Z with (Z.of_nat 1). rewrite substringFrom_skipn. reflexivity. }
  destruct (has (substring p 0 2) prefixes && _); [|discriminate].
  intros E; injection E as <- <-.
  change 2%Z with (Z.of_nat 2). rewrite substring_firstn, substringFrom_skipn.
  apply firstn_skipn.
Qed.

Lemma parse_inv unitStr au pu :
  parseSingleUnit unitStr au = Ok pu ->
  resolve (unitsOf au) (base unitStr) = Some (prefix pu, unit pu)
  /\ badExponent (exponent unitStr) = false
  /\ power pu = powerOf (exponent unitStr)
  /\ prefixed pu = base unitStr.
Proof.
  rewrite parseSingleUnit_steps.
  destruct (badExponent (exponent unitStr)) eqn:Hb; [discriminate|].
  destruct (resolve (unitsOf au) (base unitStr)) as [[pre u]|] eqn:Hr;
    [|discriminate].
  intros E; injection E as <-. simpl.
  repeat split. unfold prefixed; simpl. now apply resolve_name in Hr.
Qed.

(** Parsing a name alone, and a name with a printed exponent. *)
Lemma parse_bare au name pre u :
  ~ In CARET name -> resolve (unitsOf au) name = Some (pre, u) ->
  parseSingleUnit name au = Ok (mkParsedUnit pre u 1).
Proof.
  intros Hc Hr. rewrite parseSingleUnit_steps.
  destruct (caret_absent name Hc) as [-> ->]. rewrite Hr. reflexivity.
Qed.

Lemma parse_rendered au name pre u z :
  ~ In CARET name -> resolve (unitsOf au) name = Some (pre, u) -> z <> 0%Z ->
  representable z ->
  parseSingleUnit (name ++ CARET :: numToString z) au = Ok (mkParsedUnit pre u z).
Proof.
  intros Hc Hr Hz Hrep. rewrite parseSingleUnit_steps.
  destruct (caret_present name (numToString z) Hc) as [-> ->]. rewrite Hr.
  pose proof (Number_numToString Hrep) as Hi.
  unfold badExponent, isInteger, powerOf.
  rewrite (isZero_integerValue _ Hi), Hi.
  apply Z.eqb_neq in Hz. rewrite Hz. reflexivity.
Qed.

(** The power of a parsed unit is a binary64 value. *)
Lemma powerOf_representable unitStr :
  badExponent (exponent unitStr) = false ->
  representable (powerOf (exponent unitStr)).
Proof.
  intros Hb. unfold badExponent, isInteger in Hb.
  apply orb_false_iff in Hb as [_ Hb]. unfold powerOf.
  destruct (integerValue (exponent unitStr)) as [z|] eqn:E; [|discriminate].
  unfold exponent in E.
  destruct (indexOf unitStr CARET =? -1)%Z.
  - injection E as <-. apply representable_small. vm_compute. discriminate.
  - exact (Number_integer _ E).
Qed.

(** The suffixes [0] and [1.5], and one that is no numeral. *)
Lemma exponent_rejected :
  badExponent (Number (js "0")) = true
  /\ badExponent (Number (js "1.5")) = true
  /\ badExponent (Number (js "two")) = true.
Proof. vm_compute. repeat split. Qed.

(** C6 as stated fails, both ways.  The suffix 1.0000000000000000000001
    is not an integer, yet the token is parsed, with power 1; the suffix
    1 followed by 309 zeros is a nonzero integer, yet the token fails
    with InvalidExponent.  [Number] gives the check the binary64 value
    nearest to the suffix: 1 for the first, an infinity for the second. *)
Lemma exponent_rounded_before_check :
  parseSingleUnit (js "m^1.0000000000000000000001") None
    = Ok (mkParsedUnit None (js "m") 1)
  /\ integerValue (mathematicalValue (js "1.0000000000000000000001")) = None
  /\ parseSingleUnit (js "m^1" ++ repeat 48%N 309) None
     = Err (InvalidPower (js "m^1" ++ repeat 48%N 309))
  /\ kind (InvalidPower (js "m^1" ++ repeat 48%N 309)) = InvalidExponent
  /\ integerValue (mathematicalValue (js "1" ++ repeat 48%N 309))
     = Some (10 ^ 309)%Z.
Proof. vm_compute. repeat split. Qed.

(** C6.  A token fails with InvalidExponent exactly when it carries a
    caret and the Number value of the text after the first caret, which
    is the binary64 value nearest to what the text denotes, is not a
    nonzero integer; a token without a caret gets power 1, and one with
    a caret that integer.  When the text is the decimal numeral of a
    nonzero integer of size at most 2^53, the power is that integer; the
    suffixes 0 and 1.5 fail; every power returned is an integer that
    binary64 holds. *)
Theorem exponent_checked (unitStr : jsstring) (au : option (table Unit)) :
  (failsWith InvalidExponent (parseSingleUnit unitStr au) <->
   exists name suffix,
     unitStr = name ++ CARET :: suffix /\ ~ In CARET name
     /\ ~ nonzeroInteger (Number suffix))
  /\ (~ In CARET unitStr ->
      forall pu, parseSingleUnit unitStr au = Ok pu -> power pu = 1%Z)
  /\ (forall name suffix pu,
        unitStr = name ++ CARET :: suffix -> ~ In CARET name ->
        parseSingleUnit unitStr au = Ok pu ->
        integerValue (Number suffix) = Some (power pu) /\ power pu <> 0%Z)
  /\ (forall name z pu,
        unitStr = name ++ CARET :: numToString z -> ~ In CARET name ->
        z <> 0%Z -> (Z.abs z <= 2 ^ 53)%Z ->
        ~ failsWith InvalidExponent (parseSingleUnit unitStr au)
        /\ (parseSingleUnit unitStr au = Ok pu -> power pu = z))
  /\ (forall name suffix,
        unitStr = name ++ CARET :: suffix -> ~ In CARET name ->
        suffix = js "0" \/ suffix = js "1.5" ->
        parseSingleUnit unitStr au = Err (InvalidPower unitStr))
  /\ (forall pu, parseSingleUnit unitStr au = Ok pu -> representable (power pu)).
Proof.
  split; [|split; [|split; [|split; [|split]]]].
  - rewrite parseSingleUnit_steps. split.
    + intros (e & He & Hk).
      destruct (badExponent (exponent unitStr)) eqn:Hb.
      * destruct (caret_cases unitStr) as [Hn|(name & suffix & -> & Hn)].
        -- destruct (caret_absent unitStr Hn) as [_ Hx]. rewrite Hx in Hb.
           discriminate.
        -- exists name, suffix. repeat split; try assumption.
           destruct (caret_present name suffix Hn) as [_ Hx].
           rewrite Hx in Hb. intros Hnz. apply badExponent_false in Hnz.
           congruence.
      * destruct (resolve _ _) as [[pre u]|]; [discriminate|].
        injection He as <-. discriminate.
    + intros (name & suffix & -> & Hn & Hnz).
      destruct (caret_present name suffix Hn) as [_ ->].
      destruct (badExponent (Number suffix)) eqn:Hb.
      * eexists; split; reflexivity.
      * apply badExponent_false in Hb. contradiction.
  - intros Hn pu Hp. apply parse_inv in Hp as (_ & _ & -> & _).
    destruct (caret_absent unitStr Hn) as [_ ->]. reflexivity.
  - intros name suffix pu -> Hn Hp. apply parse_inv in Hp as (_ & Hb & -> & _).
    destruct (caret_present name suffix Hn) as [_ Hx]. rewrite Hx in *.
    split; [|apply powerOf_nonzero; exact Hb].
    unfold badExponent, isInteger in Hb. apply orb_false_iff in Hb as [_ Hb].
    unfold powerOf. destruct (integerValue (Number suffix)); [reflexivity|discriminate].
  - intros name z pu -> Hn Hz Hsmall.
    pose proof (Number_numToString (representable_small z Hsmall)) as Hi.
    assert (Hb : badExponent (Number (numToString z)) = false).
    { unfold badExponent, isInteger. rewrite (isZero_integerValue _ Hi), Hi.
      apply Z.eqb_neq in Hz. rewrite Hz. reflexivity. }
    rewrite parseSingleUnit_steps.
    destruct (caret_present name (numToString z) Hn) as [_ ->].
    rewrite Hb. unfold powerOf. rewrite Hi. split.
    + intros (e & He & Hk).
      destruct (resolve _ _) as [[pre u]|]; [discriminate|].
      injection He as <-. discriminate.
    + destruct (resolve _ _) as [[pre u]|]; [|discriminate].
      intros E; injection E as <-. reflexivity.
  - intros name suffix -> Hn Hs. rewrite parseSingleUnit_steps.
    destruct (caret_present name suffix Hn) as [_ ->].
    destruct exponent_rejected as (H0 & H1 & _).
    destruct Hs as [-> | ->]; [rewrite H0|rewrite H1]; reflexivity.
  - intros pu Hp. apply parse_inv in Hp as (_ & Hb & -> & _).
    now apply powerOf_representable.
Qed.

(** C2, at a key inherited from [Object.prototype].  ["toString"] is not
    an entry of the unit table, does not start with an underscore and has
    no prefix decomposition, yet [prefixedUnit in units] holds for it and
    the token is returned as a unit. *)
Theorem parseSingleUnit_inherited_key :
  parseSingleUnit (js "toString") None
    = Ok (mkParsedUnit None (js "toString") 1)
  /\ lookup (js "toString") builtInUnits = None
  /\ startsWithUnderscore (js "toString") = false
  /\ has (firstUnit (js "toString")) prefixes = false
  /\ has (substring (js "toString") 0 2) prefixes = false.
Proof. vm_compute. repeat split. Qed.

(** The cascade of C2 on every other name: an entry of the table (or an
    inherited key) first, then the underscore, then a one-unit prefix on
    a [prefixable] entry, then a two-unit prefix on a [binaryPrefixable]
    one, else the unable-to-parse error. *)
Lemma parseSingleUnit_cascade name au :
  ~ In CARET name ->
  parseSingleUnit name au =
  if has name (unitsOf au) then Ok (mkParsedUnit None name 1)
  else if startsWithUnderscore name then Ok (mkParsedUnit None name 1)
  else if has (firstUnit name) prefixes
          && flag prefixable (unitsOf au) (substringFrom name 1)
       then Ok (mkParsedUnit (Some (firstUnit name)) (substringFrom name 1) 1)
  else if has (substring name 0 2) prefixes
          && flag binaryPrefixable (unitsOf au) (substringFrom name 2)
       then Ok (mkParsedUnit (Some (substring name 0 2)) (substringFrom name 2) 1)
  else Err (UnableToParse name).
Proof.
  intros Hn. rewrite parseSingleUnit_steps.
  destruct (caret_absent name Hn) as [-> ->]. unfold resolve.
  change (badExponent (Finite 1)) with false. cbv iota.
  destruct (has name (unitsOf au)); [reflexivity|].
  destruct (startsWithUnderscore name); [reflexivity|].
  destruct (has (firstUnit name) prefixes && _); [reflexivity|].
  destruct (has (substring name 0 2) prefixes && _); reflexivity.
Qed.

(** C10. A symbol of the built-in table gets its built-in descriptor from
    [getUnitData], whatever [additionalUnits] holds. *)
Theorem getUnitData_builtIn (unit : jsstring) (au : option (table Unit)) (u : Unit) :
  lookup unit builtInUnits = Some u -> getUnitData unit au = Ok (Own u).
Proof.
  intros H. unfold getUnitData, get. rewrite H. reflexivity.
Qed.

Lemma getUnitData_builtIn_witness :
  lookup (js "m") builtInUnits = Some (metric 1 DIST_DIMENSION)
  /\ getUnitData (js "m") (Some [(js "m", plain 1000 MASS_DIMENSION)])
     = Ok (Own (metric 1 DIST_DIMENSION)).
Proof.
  split; [vm_compute; reflexivity|].
  apply getUnitData_builtIn. vm_compute. reflexivity.
Defined.

End ParseFacts.

(* ================================================================= *)
(** ** Unit strings *)

Module UnitStringFacts.

Import Units ParseFacts.

(** *** mapM *)

Lemma mapM_Ok {A B} (f : A -> result B) xs ys :
  mapM f xs = Ok ys <-> Forall2 (fun x y => f x = Ok y) xs ys.
Proof.
  revert ys. induction xs as [|x xs IH]; intros ys; simpl.
  - split; [intros E; injection E as <-; constructor|].
    intros H; inversion H; reflexivity.
  - destruct (f x) as [y|e] eqn:Hx; simpl.
    + destruct (mapM f xs) as [ys'|e] eqn:Hxs; simpl.
      * split.
        -- intros E; injection E as <-. constructor; [exact Hx|now apply IH].
        -- intros H; inversion H as [|? y' ? ys'' Hy Hrest]; subst.
           apply IH in Hrest. congruence.
      * split; [discriminate|].
        intros H; inversion H as [|? y' ? ys'' Hy Hrest]; subst.
        apply IH in Hrest. discriminate.
    + split; [discriminate|].
      intros H; inversion H as [|? y' ? ys'' Hy Hrest]; subst. congruence.
Qed.

Lemma mapM_length {A B} (f : A -> result B) xs ys :
  mapM f xs = Ok ys -> length ys = length xs.
Proof.
  intros H. apply mapM_Ok in H. symmetry. eapply Forall2_length, H.
Qed.

Lemma mapM_map {A B C} (f : A -> result B) (g h : C -> _) (cs : list C) :
  Forall (fun c => f (g c) = Ok (h c)) cs ->
  mapM f (map g cs) = Ok (map h cs).
Proof.
  intros H. apply mapM_Ok. induction H; simpl; constructor; assumption.
Qed.

Lemma mapM_Forall {A B} (f : A -> result B) (P : A -> Prop) (R : B -> Prop) xs ys :
  (forall x y, P x -> f x = Ok y -> R y) ->
  Forall P xs -> mapM f xs = Ok ys -> Forall R ys.
Proof.
  intros Hf HP H. apply mapM_Ok in H.
  induction H as [|x y xs ys Hxy _ IH]; constructor.
  - inversion HP; subst. eapply Hf; eassumption.
  - inversion HP; subst. now apply IH.
Qed.

(** *** Tokens and parsed units *)

(** Code units that cannot occur inside a token of [parseUnits]. *)
Definition isDelimiter (c : N) : bool := isSeparator c || N.eqb c SLASH.

Lemma isDelimiter_false c :
  isDelimiter c = false <-> isSeparator c = false /\ c <> SLASH.
Proof. unfold isDelimiter. rewrite orb_false_iff, N.eqb_neq. tauto. Qed.

Lemma free_delimiter t :
  free isDelimiter t <-> free isSeparator t /\ ~ In SLASH t.
Proof.
  unfold free. split.
  - intros H. split.
    + intros c Hc. now apply isDelimiter_false, H.
    + intros Hin. apply H, isDelimiter_false in Hin. tauto.
  - intros [Hs Hn] c Hc. apply isDelimiter_false. split; [now apply Hs|].
    intros ->. contradiction.
Qed.

Lemma separator_white t : free isSeparator t -> free isWhiteSpace t.
Proof. intros H c Hc. now apply H, isSeparator_false in Hc. Qed.

(** The tokens of a section of a unit string. *)
Lemma section_tokens section :
  ~ In SLASH section ->
  splitUnitSeparator (trim section) <> []
  /\ Forall (free isDelimiter) (splitUnitSeparator (trim section)).
Proof.
  intros Hn. split; [apply splitSeparator_nonempty|].
  eapply Forall_impl; [|apply splitSeparator_parts].
  intros part [Hf Hi]. apply free_delimiter. split; [exact Hf|].
  intros Hin. apply Hn, trim_incl, Hi, Hin.
Qed.

(** What [parseSingleUnit] returns on a token: a name that resolves to
    its prefix and unit, free of delimiters and carets, with a nonzero
    power that is a binary64 value. *)
Definition wellParsed (au : option (table Unit)) (u : ParsedUnit) : Prop :=
  resolve (unitsOf au) (prefixed u) = Some (prefix u, unit u)
  /\ ~ In CARET (prefixed u)
  /\ free isDelimiter (prefixed u)
  /\ power u <> 0%Z
  /\ representable (power u).

Lemma parse_wellParsed au token u :
  free isDelimiter token -> parseSingleUnit token au = Ok u -> wellParsed au u.
Proof.
  intros Ht Hp. apply parse_inv in Hp as (Hr & Hb & Hpow & Hname).
  destruct (base_incl token) as [Hi Hc].
  unfold wellParsed. rewrite Hname, Hpow.
  split; [exact Hr|]. split; [exact Hc|]. split; [|split].
  - eapply free_incl; eassumption.
  - now apply powerOf_nonzero.
  - now apply powerOf_representable.
Qed.

Lemma negatePower_wellParsed au u :
  wellParsed au u -> wellParsed au (negatePower u).
Proof.
  unfold wellParsed, negatePower, prefixed. simpl.
  intros (Hr & Hc & Hd & Hp & Hrep).
  split; [exact Hr|]. split; [exact Hc|]. split; [exact Hd|]. split; [lia|].
  replace (power u * -1)%Z with (- power u)%Z by lia.
  now apply representable_opp.
Qed.

(** The shape of a successful [parseUnits]. *)
Lemma parseUnits_inv unitStr au l :
  parseUnits unitStr au = Ok l ->
  exists numeratorParts,
    numeratorParts <> []
    /\ Forall (wellParsed au) numeratorParts
    /\ (l = numeratorParts
        \/ exists denominatorParts,
             Forall (wellParsed au) denominatorParts
             /\ l = numeratorParts ++ map negatePower denominatorParts).
Proof.
  unfold parseUnits.
  pose proof (split_parts SLASH unitStr) as Hparts.
  pose proof (split_nonempty SLASH unitStr) as Hne.
  destruct (split SLASH unitStr) as [|numerator rest]; [congruence|].
  destruct (2 <? length (numerator :: rest)); [discriminate|].
  simpl nth. inversion Hparts as [|? ? [Hn _] Hrest]; subst.
  destruct (section_tokens numerator Hn) as [Hnonempty Htokens].
  destruct (mapM _ (splitUnitSeparator (trim numerator))) as [nums|e] eqn:Hnums;
    [|discriminate].
  simpl bind.
  assert (Hwp : Forall (wellParsed au) nums).
  { eapply mapM_Forall; [|exact Htokens|exact Hnums].
    intros x y Hx Hy. eapply parse_wellParsed; eassumption. }
  assert (Hnums_ne : nums <> []).
  { apply mapM_length in Hnums. destruct nums; [|discriminate].
    destruct (splitUnitSeparator (trim numerator)); [congruence|discriminate]. }
  destruct rest as [|denominator rest]; simpl nth_error.
  - intros E; injection E as <-. exists nums. auto.
  - inversion Hrest as [|? ? [Hd _] _]; subst.
    destruct (section_tokens denominator Hd) as [_ Hdtokens].
    destruct (mapM _ (splitUnitSeparator (trim denominator))) as [dens|e] eqn:Hdens;
      [|discriminate].
    simpl. intros E; injection E as <-.
    exists nums. repeat split; try assumption. right. exists dens. split; [|reflexivity].
    eapply mapM_Forall; [|exact Hdtokens|exact Hdens].
    intros x y Hx Hy. eapply parse_wellParsed; eassumption.
Qed.

Lemma parseUnits_wellParsed unitStr au l :
  parseUnits unitStr au = Ok l -> l <> [] /\ Forall (wellParsed au) l.
Proof.
  intros H. apply parseUnits_inv in H as (nums & Hne & Hwp & [->|(dens & Hd & ->)]).
  - split; assumption.
  - split.
    + destruct nums; [congruence|discriminate].
    + apply Forall_app. split; [exact Hwp|].
      apply Forall_map. eapply Forall_impl; [|exact Hd].
      intros u. apply negatePower_wellParsed.
Qed.

(** *** The empty string and the empty numerator *)

Definition returnsEmptyList (r : result (list ParsedUnit)) : bool :=
  match r with
  | Ok [] => true
  | _ => false
  end.

(** C4 as stated fails: the empty string is not parsed to the empty list. *)
Lemma parseUnits_empty_not_Ok : parseUnits [] None <> Ok [].
Proof. vm_compute. discriminate. Qed.

(** C4, as the parser has it.  The empty string splits into one empty
    token, which is not a unit: [parseUnits] fails on it with the
    unable-to-parse error (kind UnknownUnit).  No unit string at all is
    parsed to the empty list. *)
Theorem parseUnits_empty_string :
  parseUnits [] None = Err (UnableToParse [])
  /\ kind (UnableToParse []) = UnknownUnit
  /\ forall unitStr au, returnsEmptyList (parseUnits unitStr au) = false.
Proof.
  split; [vm_compute; reflexivity|]. split; [reflexivity|].
  intros unitStr au. destruct (parseUnits unitStr au) as [l|e] eqn:H; [|reflexivity].
  apply parseUnits_wellParsed in H as [Hne _].
  destruct l; [congruence|reflexivity].
Qed.


Lemma parseSingleUnit_empty : parseSingleUnit [] None = Err (UnableToParse []).
Proof. vm_compute. reflexivity. Qed.



(** *** The formatter *)

Definition isNumerator (u : ParsedUnit) : bool := (0 <? power u)%Z.

Definition numeratorOf (units : list ParsedUnit) : list ParsedUnit :=
  filter isNumerator units.

Definition denominatorOf (units : list ParsedUnit) : list ParsedUnit :=
  filter (fun u => negb (isNumerator u)) units.

(** An entry on either side of the slash: the exponent is the absolute
    power, left out when it is 1. *)
Definition render (u : ParsedUnit) : jsstring :=
  prefixed u ++
  (if (Z.abs (power u) =? 1)%Z then []
   else CARET :: numToString (Z.abs (power u))).

(** An entry when there is no numerator: the power as it is, always. *)
Definition renderSigned (u : ParsedUnit) : jsstring :=
  prefixed u ++ CARET :: numToString (power u).

(** The body of the loop of [toUnitString]. *)
Definition pushUnit
  : list jsstring * list jsstring -> ParsedUnit -> list jsstring * list jsstring :=
  fun '(numerator, denominator) u =>
  if (0 <? power u)%Z then
    (numerator ++
       [prefixed u ++
        (if negb (power u =? 1)%Z then CARET :: numToString (power u) else [])],
     denominator)
  else
    (numerator,
     denominator ++
       [prefixed u ++
        (if negb (power u =? -1)%Z then CARET :: numToString (power u * -1)
         else [])]).

Lemma pushUnit_render acc u :
  pushUnit acc u =
  if isNumerator u then (fst acc ++ [render u], snd acc)
  else (fst acc, snd acc ++ [render u]).
Proof.
  destruct acc as [n d]. unfold pushUnit, isNumerator, render. simpl.
  destruct (Z.ltb_spec 0 (power u)) as [Hp|Hp].
  - rewrite Z.abs_eq by lia. destruct (power u =? 1)%Z; reflexivity.
  - replace (Z.abs (power u)) with (power u * -1)%Z by lia.
    replace (power u =? -1)%Z with (power u * -1 =? 1)%Z.
    + destruct (power u * -1 =? 1)%Z; reflexivity.
    + destruct (Z.eqb_spec (power u * -1) 1), (Z.eqb_spec (power u) (-1));
        try reflexivity; lia.
Qed.

Lemma fold_pushUnit units acc :
  fold_left pushUnit units acc =
  (fst acc ++ map render (numeratorOf units),
   snd acc ++ map render (denominatorOf units)).
Proof.
  revert acc. induction units as [|u units IH]; intros acc; cbn [fold_left].
  - destruct acc. simpl. rewrite !app_nil_r. reflexivity.
  - rewrite IH, pushUnit_render. unfold numeratorOf, denominatorOf.
    cbn [filter]. destruct (isNumerator u); simpl; rewrite <- app_assoc;
      reflexivity.
Qed.

(** [toUnitString] by cases on the two sides. *)
Lemma toUnitString_cases units :
  toUnitString units =
  match denominatorOf units, numeratorOf units with
  | [], num => join [DOT] (map render num)
  | _ :: _, [] => join [DOT] (map renderSigned units)
  | den, num =>
      join [DOT] (map render num) ++ [SLASH] ++ join [DOT] (map render den)
  end.
Proof.
  unfold toUnitString.
  change (fold_left _ units ([], [])) with (fold_left pushUnit units ([], [])).
  rewrite fold_pushUnit. simpl fst. simpl snd. simpl app.
  destruct (denominatorOf units) as [|d ds]; [reflexivity|].
  destruct (numeratorOf units) as [|n ns]; reflexivity.
Qed.

(** *** What the formatter writes *)

Lemma free_eqb d t : free (fun c => N.eqb c d) t <-> ~ In d t.
Proof.
  unfold free. split.
  - intros H Hin. apply H in Hin. rewrite N.eqb_refl in Hin. discriminate.
  - intros H c Hc. apply N.eqb_neq. intros ->. contradiction.
Qed.

(** The formatter adds only the dot, the slash, the caret and numerals
    to the names. *)
Definition addedChar (c : N) : bool :=
  N.eqb c DOT || N.eqb c SLASH || N.eqb c CARET || numeralChar c.

Definition avoidsAdded (P : N -> bool) : Prop :=
  forall c, addedChar c = true -> P c = false.

Lemma numToString_free P z :
  (forall c, numeralChar c = true -> P c = false) -> free P (numToString z).
Proof.
  intros HP c Hc. apply HP.
  pose proof (numToString_chars z) as H. rewrite Forall_forall in H. now apply H.
Qed.

Lemma render_free P u :
  P CARET = false -> (forall c, numeralChar c = true -> P c = false) ->
  free P (prefixed u) -> free P (render u) /\ free P (renderSigned u).
Proof.
  intros Hc Hn Hu.
  assert (Hexp : forall z, free P (CARET :: numToString z)).
  { intros z. apply free_cons. split; [exact Hc|now apply numToString_free]. }
  unfold render, renderSigned. split; apply free_app; split; try assumption;
    try apply Hexp.
  destruct (Z.abs (power u) =? 1)%Z; [apply free_nil|apply Hexp].
Qed.

Lemma toUnitString_free P units :
  avoidsAdded P ->
  Forall (fun u => free P (prefixed u)) units -> free P (toUnitString units).
Proof.
  intros HP Hall.
  assert (Hdot : free P [DOT]).
  { apply free_cons; split; [now apply HP|apply free_nil]. }
  assert (Hcaret : P CARET = false) by now apply HP.
  assert (Hnum : forall c, numeralChar c = true -> P c = false).
  { intros c Hc. apply HP. unfold addedChar. rewrite Hc. apply orb_true_r. }
  assert (Hr : forall f us, (f = render \/ f = renderSigned) ->
                 incl us units -> free P (join [DOT] (map f us))).
  { intros f us Hf Hi. apply join_free; [exact Hdot|]. apply Forall_map.
    apply Forall_forall. intros u Hu. rewrite Forall_forall in Hall.
    destruct (render_free u Hcaret Hnum (Hall u (Hi u Hu))) as [H1 H2].
    destruct Hf as [->| ->]; assumption. }
  assert (Hin : incl (numeratorOf units) units) by apply incl_filter.
  assert (Hid : incl (denominatorOf units) units) by apply incl_filter.
  rewrite toUnitString_cases.
  destruct (denominatorOf units) as [|d ds]; [apply Hr; auto|].
  destruct (numeratorOf units) as [|n ns]; [apply Hr; auto using incl_refl|].
  apply free_app; split; [apply Hr; auto|].
  apply free_app; split; [|apply Hr; auto].
  apply free_cons; split; [now apply HP|apply free_nil].
Qed.

(** [s.includes(sub)] *)
Fixpoint startsWith (str sub : jsstring) : bool :=
  match sub, str with
  | [], _ => true
  | c :: sub', x :: str' => N.eqb x c && startsWith str' sub'
  | _ :: _, [] => false
  end.

Fixpoint includes (str sub : jsstring) : bool :=
  startsWith str sub
  || match str with
     | [] => false
     | _ :: rest => includes rest sub
     end.

(** C9 as stated fails.  A lone denominator is written with its signed
    power and the caret even when the power is -1, not as the name
    alone; and an exponent such as 10 puts the two characters of [^1]
    in the output. *)
Lemma toUnitString_lone_denominator :
  toUnitString [mkParsedUnit None (js "s") (-1)] = js "s^-1"
  /\ render (mkParsedUnit None (js "s") (-1)) = js "s"
  /\ includes (toUnitString [mkParsedUnit None (js "m") 10]) (js "^1") = true.
Proof. vm_compute. repeat split. Qed.

(** C9, as the formatter has it.  The entries with a positive power are
    the numerator, the others the denominator.  When there is a
    numerator, or no denominator, each entry is its prefix, its unit and,
    unless the absolute power is 1, a caret and the absolute power; the
    entries of a side are joined by U+22C5 and two sides by one slash.
    When there is only a denominator, every entry is written with a caret
    and its signed power, joined by U+22C5, without a slash.  The
    formatter adds no white space: the output has some only if a name
    has. *)
Theorem toUnitString_format (units : list ParsedUnit) :
  toUnitString units =
    match denominatorOf units, numeratorOf units with
    | [], num => join [DOT] (map render num)
    | _ :: _, [] => join [DOT] (map renderSigned units)
    | den, num =>
        join [DOT] (map render num) ++ [SLASH] ++ join [DOT] (map render den)
    end
  /\ (forall u,
        render u = if (Z.abs (power u) =? 1)%Z then prefixed u
                   else prefixed u ++ CARET :: numToString (Z.abs (power u)))
  /\ (Forall (fun u => free isWhiteSpace (prefixed u)) units ->
      free isWhiteSpace (toUnitString units)).
Proof.
  split; [apply toUnitString_cases|]. split.
  - intros u. unfold render. destruct (Z.abs (power u) =? 1)%Z;
      [apply app_nil_r|reflexivity].
  - apply toUnitString_free. intros c Hc. unfold addedChar in Hc.
    apply orb_true_iff in Hc as [Hc|Hc];
      [|now apply numeralChar_not_white].
    apply orb_true_iff in Hc as [Hc|Hc].
    + apply orb_true_iff in Hc as [Hc|Hc];
        apply N.eqb_eq in Hc; subst c; reflexivity.
    + apply N.eqb_eq in Hc; subst c; reflexivity.
Qed.

Lemma toUnitString_format_witness :
  free isWhiteSpace
    (toUnitString [mkParsedUnit (Some (js "k")) (js "g") 1;
                   mkParsedUnit None (js "s") (-2)]).
Proof.
  apply (proj2 (proj2 (toUnitString_format _))).
  repeat constructor; intros c Hc; vm_compute in Hc;
    repeat (destruct Hc as [<-|Hc]; [reflexivity|]); destruct Hc.
Defined.

(** *** Parsing what the formatter wrote *)

Lemma numeral_not_delimiter c : numeralChar c = true -> isDelimiter c = false.
Proof.
  intros H. apply isDelimiter_false. split.
  - apply isSeparator_false. split; [now apply numeralChar_not_white|].
    unfold numeralChar, isDigit in H. apply N.eqb_neq. intros ->.
    vm_compute in H. discriminate.
  - intros ->. vm_compute in H. discriminate.
Qed.

Lemma render_token au u :
  wellParsed au u ->
  free isDelimiter (render u) /\ free isDelimiter (renderSigned u).
Proof.
  intros (_ & _ & Hd & _).
  apply render_free; [reflexivity|apply numeral_not_delimiter|exact Hd].
Qed.

Lemma parse_render au u :
  wellParsed au u ->
  parseSingleUnit (render u) au
  = Ok (mkParsedUnit (prefix u) (unit u) (Z.abs (power u))).
Proof.
  intros (Hr & Hc & _ & Hp & Hrep). unfold render.
  destruct (Z.eqb_spec (Z.abs (power u)) 1) as [->|Hne].
  - rewrite app_nil_r. now apply parse_bare.
  - apply parse_rendered; [assumption|assumption|lia|].
    now apply representable_abs.
Qed.

Lemma parse_renderSigned au u :
  wellParsed au u -> parseSingleUnit (renderSigned u) au = Ok u.
Proof.
  intros (Hr & Hc & _ & Hp & Hrep). unfold renderSigned.
  rewrite (parse_rendered au (prefixed u) Hc Hr Hp Hrep). destruct u; reflexivity.
Qed.

(** One side of the slash, written and read back. *)
Lemma parse_section au (f : ParsedUnit -> jsstring) (g : ParsedUnit -> ParsedUnit) us :
  us <> [] ->
  Forall (fun u => free isDelimiter (f u) /\ parseSingleUnit (f u) au = Ok (g u)) us ->
  ~ In SLASH (join [DOT] (map f us))
  /\ mapM (fun part => parseSingleUnit part au)
          (splitUnitSeparator (trim (join [DOT] (map f us)))) = Ok (map g us).
Proof.
  intros Hne Hall.
  assert (Htok : Forall (free isDelimiter) (map f us)).
  { apply Forall_map. eapply Forall_impl; [|exact Hall]. now intros u [H _]. }
  assert (Hsep : Forall (free isSeparator) (map f us)).
  { eapply Forall_impl; [|exact Htok]. intros t Ht. now apply free_delimiter in Ht. }
  split.
  - apply free_eqb. apply join_free.
    + apply free_cons; split; [reflexivity|apply free_nil].
    + eapply Forall_impl; [|exact Htok]. intros t Ht.
      apply free_eqb. now apply free_delimiter in Ht.
  - rewrite trim_free.
    + rewrite splitSeparator_join; [|destruct us; [congruence|discriminate]|exact Hsep].
      apply mapM_map. eapply Forall_impl; [|exact Hall]. now intros u [_ H].
    + apply join_free.
      * apply free_cons; split; [reflexivity|apply free_nil].
      * eapply Forall_impl; [|exact Hsep]. intros t. apply separator_white.
Qed.

Lemma filter_nil_all {A} (f : A -> bool) l :
  filter f l = [] -> filter (fun x => negb (f x)) l = l.
Proof.
  induction l as [|x l IH]; simpl; [reflexivity|].
  destruct (f x); [discriminate|]. simpl. intros H. f_equal. now apply IH.
Qed.

Lemma filter_neg_nil_all {A} (f : A -> bool) l :
  filter (fun x => negb (f x)) l = [] -> filter f l = l.
Proof.
  induction l as [|x l IH]; simpl; [reflexivity|].
  destruct (f x); simpl; [|discriminate]. intros H. f_equal. now apply IH.
Qed.

Lemma filter_partition_Permutation {A} (f : A -> bool) l :
  Permutation (filter f l ++ filter (fun x => negb (f x)) l) l.
Proof.
  induction l as [|x l IH]; simpl; [constructor|].
  destruct (f x); simpl.
  - now constructor.
  - symmetry. apply Permutation_cons_app. now symmetry.
Qed.

Lemma numerator_written au u :
  wellParsed au u -> isNumerator u = true ->
  free isDelimiter (render u) /\ parseSingleUnit (render u) au = Ok u.
Proof.
  intros Hw Hn. split; [apply (render_token Hw)|].
  rewrite (parse_render Hw). unfold isNumerator in Hn. apply Z.ltb_lt in Hn.
  rewrite Z.abs_eq by lia. destruct u; reflexivity.
Qed.

Lemma denominator_written au u :
  wellParsed au u -> isNumerator u = false ->
  free isDelimiter (render u)
  /\ parseSingleUnit (render u) au
     = Ok (mkParsedUnit (prefix u) (unit u) (Z.abs (power u)))
  /\ negatePower (mkParsedUnit (prefix u) (unit u) (Z.abs (power u))) = u.
Proof.
  intros Hw Hn. split; [apply (render_token Hw)|].
  split; [apply (parse_render Hw)|].
  unfold isNumerator in Hn. apply Z.ltb_ge in Hn.
  unfold negatePower. simpl. replace (Z.abs (power u) * -1)%Z with (power u) by lia.
  destruct u; reflexivity.
Qed.

(** Formatting well-parsed units and parsing the result gives the
    numerator entries, then the denominator entries. *)
Lemma format_parse au units :
  units <> [] -> Forall (wellParsed au) units ->
  parseUnits (toUnitString units) au
  = Ok (numeratorOf units ++ denominatorOf units).
Proof.
  intros Hne Hall. rewrite toUnitString_cases.
  assert (Hnum : Forall (fun u => free isDelimiter (render u)
                           /\ parseSingleUnit (render u) au = Ok (id u))
                        (numeratorOf units)).
  { apply Forall_forall. intros u Hu. apply filter_In in Hu as [Hu Hn].
    rewrite Forall_forall in Hall. apply numerator_written; auto. }
  assert (Hden : Forall (fun u => free isDelimiter (render u)
                           /\ parseSingleUnit (render u) au
                              = Ok (mkParsedUnit (prefix u) (unit u) (Z.abs (power u))))
                        (denominatorOf units)).
  { apply Forall_forall. intros u Hu. apply filter_In in Hu as [Hu Hn].
    apply negb_true_iff in Hn. rewrite Forall_forall in Hall.
    destruct (denominator_written (Hall u Hu) Hn) as (H1 & H2 & _). auto. }
  assert (Hback : map negatePower
                    (map (fun u => mkParsedUnit (prefix u) (unit u) (Z.abs (power u)))
                         (denominatorOf units)) = denominatorOf units).
  { rewrite map_map. rewrite <- (map_id (denominatorOf units)) at 2.
    apply map_ext_in. intros u Hu. apply filter_In in Hu as [Hu Hn].
    apply negb_true_iff in Hn. rewrite Forall_forall in Hall.
    now destruct (denominator_written (Hall u Hu) Hn) as (_ & _ & H3). }
  unfold parseUnits.
  destruct (denominatorOf units) as [|d ds] eqn:Ed.
  - (* a numerator only *)
    assert (Hn : numeratorOf units <> []).
    { unfold numeratorOf. rewrite (filter_neg_nil_all _ _ Ed). exact Hne. }
    destruct (parse_section au render id Hn Hnum) as [Hslash Hparse].
    rewrite split_absent by exact Hslash. simpl. rewrite Hparse. simpl.
    rewrite map_id, app_nil_r. reflexivity.
  - destruct (numeratorOf units) as [|n ns] eqn:En.
    + (* a denominator only *)
      assert (Hsigned : Forall (fun u => free isDelimiter (renderSigned u)
                                 /\ parseSingleUnit (renderSigned u) au = Ok (id u))
                               units).
      { eapply Forall_impl; [|exact Hall]. intros u Hu.
        split; [apply (render_token Hu)|apply (parse_renderSigned Hu)]. }
      destruct (parse_section au renderSigned id Hne Hsigned)
        as [Hslash Hparse].
      rewrite split_absent by exact Hslash. simpl. rewrite Hparse. simpl.
      rewrite map_id. rewrite <- Ed. unfold denominatorOf.
      fold (numeratorOf units) in En.
      rewrite (filter_nil_all _ _ En). reflexivity.
    + (* both sides *)
      assert (Hn : n :: ns <> []) by discriminate.
      assert (Hd : d :: ds <> []) by discriminate.
      destruct (parse_section au render id Hn Hnum) as [Hs1 Hp1].
      destruct (parse_section au render _ Hd Hden) as [Hs2 Hp2].
      change (join [DOT] (map render (n :: ns)) ++ [SLASH]
              ++ join [DOT] (map render (d :: ds)))
        with (join [DOT] (map render (n :: ns))
              ++ SLASH :: join [DOT] (map render (d :: ds))).
      rewrite split_app by exact Hs1. rewrite split_absent by exact Hs2.
      cbn [length Nat.ltb Nat.leb nth nth_error].
      rewrite Hp1. cbn [bind]. rewrite Hp2. cbn [bind].
      rewrite map_id, Hback. reflexivity.
Qed.

(** C3. Parsing what the formatter writes for a parsed unit string gives
    the same parsed units again, up to their order. *)
Theorem parse_format_parse (unitStr : jsstring) (au : option (table Unit))
    (l : list ParsedUnit) :
  parseUnits unitStr au = Ok l ->
  exists l', parseUnits (toUnitString l) au = Ok l' /\ Permutation l' l.
Proof.
  intros H. apply parseUnits_wellParsed in H as [Hne Hall].
  exists (numeratorOf l ++ denominatorOf l). split.
  - now apply format_parse.
  - apply filter_partition_Permutation.
Qed.

Lemma parse_format_parse_witness :
  exists l',
    parseUnits (toUnitString [mkParsedUnit None (js "s") (-1);
                              mkParsedUnit (Some (js "k")) (js "g") 2]) None
    = Ok l'
    /\ Permutation l' [mkParsedUnit None (js "s") (-1);
                       mkParsedUnit (Some (js "k")) (js "g") 2].
Proof.
  apply (parse_format_parse (js "s^-1 kg^2") None).
  vm_compute. reflexivity.
Defined.

End UnitStringFacts.

(* ================================================================= *)
(** ** Conversions *)

Module QuantityFacts.

Import Dim.

(** The engine run on the rows of the repository's conversion test that
    involve no offset, and on its invalid conversions. *)
Lemma offset_free_tests :
  forallb (fun '(m, source, target, expected) =>
             yields (conversion m source target None) expected)
          offsetFreeTests = true.
Proof. vm_compute. reflexivity. Qed.

Lemma invalid_conversions :
  Forall (fun '(m, source, target) =>
            conversion m source target None = Err InvalidConversionError)
         invalidConversions.
Proof. repeat constructor. Qed.

(** Custom dimensions that cancel leave a dimensionless quantity. *)
Lemma custom_dimensions_cancel :
  yields (conversion 1 (js "_pax/_pax") (js "%") None) 100 = true
  /\ yields (conversion 7200 (js "pphpd") (js "_pax/s _dir") None) 2 = true.
Proof. vm_compute. split; reflexivity. Qed.

(** A composite with its offset counted in the unit's own degrees: the
    offset of the unit table, which is in SI base units (273.15 for degC,
    255.372... for degF, both kelvin), divided by the scale. *)
Definition inOwnDegrees (c : Composite) : Composite :=
  mkComposite (scale c) (dims c) (offsetOf c / scale c)%Q.

(** With the offsets in own degrees, the two magnitude steps add the
    source's zero after scaling and remove the target's before
    unscaling. *)
Lemma own_degrees_formula (m : Q) (cs ct : Composite) :
  ~ (scale cs == 0)%Q -> ~ (scale ct == 0)%Q ->
  (fromBase (toBase m (inOwnDegrees cs)) (inOwnDegrees ct)
   == (m * scale cs + offsetOf cs - offsetOf ct) / scale ct)%Q.
Proof.
  intros Hs Ht. unfold fromBase, toBase, inOwnDegrees. cbn [scale offsetOf].
  field. split; assumption.
Qed.





End QuantityFacts.

(* ================================================================= *)
(** * Further properties of the sources *)

(** ** Dimensions: [equalTo] and [isDimensionless] *)

Module DimMore.

Import Dim DimFacts.

(** [equalTo] read field by field. *)
Lemma equalTo_fields (a b : Dimensions) :
  equalTo a b = true <->
  dimensions a = dimensions b
  /\ customDimensionNames a = customDimensionNames b
  /\ (offset a == offset b)%Q.
Proof.
  rewrite equalTo_unfold, !andb_true_iff, Qeq_bool_iff, Nat.eqb_eq.
  split.
  - intros [[[[Hoff Hlen] Hdims] Hsame] Hnames].
    apply (every_sameAt Z.eqb Zeqb_iff _ _ Hlen) in Hdims.
    split; [exact Hdims|]. split; [|symmetry; exact Hoff].
    destruct (customDimensionNames a) as [na|], (customDimensionNames b) as [nb|];
      simpl in Hsame; try discriminate; [|reflexivity].
    apply Nat.eqb_eq in Hsame.
    apply (every_sameAt str_eqb str_eqb_eq _ _ Hsame) in Hnames.
    now subst.
  - intros (Hdims & Hnames & Hoff). rewrite Hdims, Hnames.
    repeat split.
    + symmetry; exact Hoff.
    + apply (every_sameAt Z.eqb Zeqb_iff); reflexivity.
    + destruct (customDimensionNames b); simpl; [apply Nat.eqb_refl|reflexivity].
    + destruct (customDimensionNames b) as [nb|]; [|reflexivity].
      apply (every_sameAt str_eqb str_eqb_eq); reflexivity.
Qed.

Lemma bool_iff (x y : bool) : (x = true <-> y = true) -> x = y.
Proof. destruct x, y; intros [H1 H2]; auto; symmetry; auto. Qed.

(** X1. [equalTo] is symmetric and transitive: [a.equalTo(b)] and
    [b.equalTo(a)] agree although the method reads its two sides
    differently, and equality passes along a chain.  (That a Dimensions
    equals itself is not stated: the source compares numbers with [===],
    which a NaN fails against itself, and the numbers here have none.) *)
Theorem equalTo_symmetric_transitive :
  (forall a b, equalTo a b = equalTo b a)
  /\ (forall a b c, equalTo a b = true -> equalTo b c = true ->
                    equalTo a c = true).
Proof.
  split.
  - intros a b. apply bool_iff. rewrite !equalTo_fields.
    split; intros (H1 & H2 & H3); repeat split; try congruence;
      symmetry; exact H3.
  - intros a b c Hab Hbc. apply equalTo_fields in Hab as (H1 & H2 & H3).
    apply equalTo_fields in Hbc as (H4 & H5 & H6). apply equalTo_fields.
    repeat split; try congruence. now rewrite H3.
Qed.

Lemma equalTo_symmetric_transitive_witness :
  equalTo (mkDimensions [1; 0; 0; 0; 0; 0; 0; 0]%Z None (1 # 2))
          (mkDimensions [1; 0; 0; 0; 0; 0; 0; 0]%Z None (3 # 6)) = true.
Proof.
  apply (proj2 equalTo_symmetric_transitive) with
    (b := mkDimensions [1; 0; 0; 0; 0; 0; 0; 0]%Z None (2 # 4));
    vm_compute; reflexivity.
Defined.

Lemma every_forallb {A} (p : A -> bool) (l : list A) :
  every (fun x _ => p x) l = forallb p l.
Proof.
  unfold every. generalize 0. induction l as [|x l IH]; intros i; simpl;
    [reflexivity|]. now rewrite IH.
Qed.

Lemma isDimensionless_iff (x : Dimensions) :
  isDimensionless x = true <->
  Forall (fun e => e = 0%Z) (dimensions x) /\ (offset x == 0)%Q.
Proof.
  unfold isDimensionless. rewrite every_forallb, andb_true_iff, Qeq_bool_iff.
  rewrite forallb_forall, Forall_forall.
  split; intros [H1 H2]; (split; [|exact H2]); intros e He;
    specialize (H1 e He); apply Z.eqb_eq; exact H1.
Qed.

(** X2. A Dimensions equals the [Dimensionless] constant exactly when it
    is dimensionless and carries no custom dimensions at all: a vector
    with a custom slot, even at exponent 0, is dimensionless without being
    equal to [Dimensionless]. *)
Theorem equalTo_Dimensionless (x : Dimensions) :
  equalTo x Dimensionless = true <->
  isDimensionless x = true
  /\ length (dimensions x) = 8
  /\ customDimensionNames x = None.
Proof.
  rewrite equalTo_fields, isDimensionless_iff. simpl. split.
  - intros (Hd & Hn & Ho). rewrite Hd. repeat split; try assumption.
    repeat constructor.
  - intros ((Hall & Ho) & Hlen & Hn). repeat split; try assumption.
    destruct (dimensions x) as [|e0 [|e1 [|e2 [|e3 [|e4 [|e5 [|e6 [|e7 [|e8 l]]]]]]]]];
      try discriminate.
    repeat match goal with
           | H : Forall _ (_ :: _) |- _ =>
               apply Forall_cons_iff in H; destruct H as [-> H]
           end.
    reflexivity.
Qed.

(** X3. Equal Dimensions are dimensionless together. *)
Theorem isDimensionless_equalTo (a b : Dimensions) :
  equalTo a b = true -> isDimensionless a = isDimensionless b.
Proof.
  intros H. apply equalTo_fields in H as (Hd & _ & Ho).
  apply bool_iff. rewrite !isDimensionless_iff, Hd, Ho. reflexivity.
Qed.

Lemma isDimensionless_equalTo_witness :
  isDimensionless (mkDimensions [0; 0; 0; 0; 0; 0; 0; 0; 0]%Z (Some [js "pax"]) (0 # 3))
  = isDimensionless (mkDimensions [0; 0; 0; 0; 0; 0; 0; 0; 0]%Z (Some [js "pax"]) 0).
Proof. apply isDimensionless_equalTo. vm_compute. reflexivity. Defined.

End DimMore.

(* ================================================================= *)
(** ** The tables, the parser and [getUnitData] together *)

Module ParseMore.

Import Dim Units ParseFacts.

(** *** Tables *)

Lemma lookup_In {V} k (t : table V) v : lookup k t = Some v -> In (k, v) t.
Proof.
  induction t as [|[k' v'] t IH]; simpl; [discriminate|].
  destruct (str_eqb k k') eqn:E.
  - apply str_eqb_eq in E as ->. intros H; injection H as ->. now left.
  - intros H. right. now apply IH.
Qed.

Lemma lookup_app {V} k (a b : table V) :
  lookup k (a ++ b) = match lookup k a with
                      | Some v => Some v
                      | None => lookup k b
                      end.
Proof.
  induction a as [|[k' v'] a IH]; simpl; [reflexivity|].
  destruct (str_eqb k k'); [reflexivity|exact IH].
Qed.

(** A check that holds of every entry holds of the entry found. *)
Lemma lookup_forallb {V} (p : jsstring * V -> bool) (t : table V) k v :
  forallb p t = true -> lookup k t = Some v -> p (k, v) = true.
Proof.
  intros Hall H. apply lookup_In in H. rewrite forallb_forall in Hall.
  now apply Hall.
Qed.

(** No key of one or two code units is inherited from [Object.prototype]. *)
Lemma short_not_inherited k : length k <= 2 -> isObjectPrototypeKey k = false.
Proof.
  intros H. destruct k as [|a [|b [|c k]]]; [reflexivity| | |simpl in H; lia].
  - unfold isObjectPrototypeKey. simpl. rewrite !andb_false_r. reflexivity.
  - unfold isObjectPrototypeKey. simpl. rewrite !andb_false_r. reflexivity.
Qed.

Lemma has_short {V} (t : table V) k :
  length k <= 2 -> has k t = true -> exists v, lookup k t = Some v.
Proof.
  intros Hlen. unfold has, get. destruct (lookup k t) as [v|]; [eauto|].
  rewrite (short_not_inherited k Hlen). discriminate.
Qed.

Lemma flag_true f (units : table Unit) name :
  flag f units name = true ->
  exists x, lookup name units = Some x /\ f x = true.
Proof.
  unfold flag, get. destruct (lookup name units) as [x|]; [eauto|].
  destruct (isObjectPrototypeKey name); discriminate.
Qed.

(** The keys of [prefixes]: one code unit, or two with [i] second. *)
Definition prefixKeyShape (entry : jsstring * Q) : bool :=
  match fst entry with
  | [_] => true
  | [_; c] => N.eqb c 105
  | _ => false
  end.

Lemma prefixes_shape : forallb prefixKeyShape prefixes = true.
Proof. vm_compute. reflexivity. Qed.

Lemma prefix_key_shape k f :
  lookup k prefixes = Some f ->
  (exists a, k = [a]) \/ (exists a, k = [a; 105%N]).
Proof.
  intros H. pose proof (lookup_forallb prefixKeyShape prefixes k prefixes_shape H) as Hs.
  unfold prefixKeyShape in Hs. simpl in Hs.
  destruct k as [|a [|b [|c k]]]; try discriminate; [left; eauto|].
  apply N.eqb_eq in Hs as ->. right; eauto.
Qed.

Lemma firstUnit_prefix name :
  has (firstUnit name) prefixes = true ->
  exists c rest f, name = c :: rest /\ firstUnit name = [c]
                   /\ lookup [c] prefixes = Some f.
Proof.
  destruct name as [|c rest]; simpl firstUnit.
  - rewrite undefined_not_prefix. discriminate.
  - intros H. apply has_short in H as [f Hf]; [|simpl; lia].
    exists c, rest, f. auto.
Qed.

Lemma firstTwo_prefix name :
  has (substring name 0 2) prefixes = true ->
  exists f, lookup (firstn 2 name) prefixes = Some f.
Proof.
  change 2%Z with (Z.of_nat 2). rewrite substring_firstn. intros H.
  apply has_short in H; [exact H|]. rewrite length_firstn. lia.
Qed.

(** *** What a parsed unit is *)

Lemma resolve_inv units p pre un :
  resolve units p = Some (pre, un) ->
  (pre = None /\ un = p
   /\ (has p units = true \/ startsWithUnderscore p = true))
  \/ (pre = Some (firstUnit p) /\ un = substringFrom p 1
      /\ has (firstUnit p) prefixes = true
      /\ flag prefixable units un = true)
  \/ (pre = Some (substring p 0 2) /\ un = substringFrom p 2
      /\ has (substring p 0 2) prefixes = true
      /\ flag binaryPrefixable units un = true).
Proof.
  unfold resolve.
  destruct (has p units) eqn:H1.
  { intros E; injection E as <- <-. left. auto. }
  destruct (startsWithUnderscore p) eqn:H2.
  { intros E; injection E as <- <-. left. auto. }
  destruct (has (firstUnit p) prefixes && _) eqn:H3.
  { intros E; injection E as <- <-. apply andb_true_iff in H3 as [? ?].
    right; left. auto. }
  destruct (has (substring p 0 2) prefixes && _) eqn:H4; [|discriminate].
  intros E; injection E as <- <-. apply andb_true_iff in H4 as [? ?].
  right; right. auto.
Qed.

(** X4. What [parseSingleUnit] returns: the power is not zero; prefix and
    unit together spell the token up to its caret; a prefix is a key of
    [prefixes] of one or two code units (so the cast to [Prefix] is
    sound) on a unit of the table that accepts prefixes, binary ones when
    the prefix has two code units; without a prefix the unit is a key of
    the table or starts with an underscore. *)
Theorem parseSingleUnit_result (token : jsstring) (au : option (table Unit))
    (u : ParsedUnit) :
  parseSingleUnit token au = Ok u ->
  power u <> 0%Z
  /\ prefixed u = base token
  /\ match prefix u with
     | None =>
         has (unit u) (unitsOf au) = true
         \/ startsWithUnderscore (unit u) = true
     | Some p =>
         (exists f, lookup p prefixes = Some f)
         /\ (length p = 1 \/ length p = 2)
         /\ exists x, lookup (unit u) (unitsOf au) = Some x
                      /\ (prefixable x = true \/ binaryPrefixable x = true)
                      /\ (length p = 2 -> binaryPrefixable x = true)
     end.
Proof.
  intros H. apply parse_inv in H as (Hr & Hb & Hp & Hn).
  split; [rewrite Hp; now apply powerOf_nonzero|]. split; [exact Hn|].
  apply resolve_inv in Hr
    as [(-> & -> & H)|[(-> & Hu & Hpre & Hf)|(-> & Hu & Hpre & Hf)]].
  - exact H.
  - apply firstUnit_prefix in Hpre as (c & rest & f & _ & -> & Hf').
    apply flag_true in Hf as (x & Hx & Hfx).
    split; [eauto|]. split; [left; reflexivity|].
    exists x. repeat split; auto. simpl. lia.
  - apply firstTwo_prefix in Hpre as [f Hf'].
    change 2%Z with (Z.of_nat 2). rewrite substring_firstn.
    apply flag_true in Hf as (x & Hx & Hfx).
    split; [eauto|]. split.
    + destruct (prefix_key_shape _ Hf') as [[a ->]|[a ->]]; auto.
    + exists x. auto.
Qed.

Lemma parseSingleUnit_result_witness :
  power (mkParsedUnit (Some (js "Gi")) (js "B") 3) <> 0%Z
  /\ prefixed (mkParsedUnit (Some (js "Gi")) (js "B") 3) = base (js "GiB^3")
  /\ ((exists f, lookup (js "Gi") prefixes = Some f)
      /\ (length (js "Gi") = 1 \/ length (js "Gi") = 2)
      /\ exists x, lookup (js "B") (unitsOf None) = Some x
                   /\ (prefixable x = true \/ binaryPrefixable x = true)
                   /\ (length (js "Gi") = 2 -> binaryPrefixable x = true)).
Proof.
  apply (@parseSingleUnit_result (js "GiB^3") None
           (mkParsedUnit (Some (js "Gi")) (js "B") 3)).
  vm_compute. reflexivity.
Defined.

(** *** Parsed units and [getUnitData] *)

Lemma custom_dimensions_constructed name :
  Dim.new [0; 0; 0; 0; 0; 0; 0; 0; 1]%Z (Some [name]) 0
  = Ok (mkDimensions [0; 0; 0; 0; 0; 0; 0; 0; 1]%Z (Some [name]) 0).
Proof. reflexivity. Qed.

(** A key of the merged table is found by [getUnitData]. *)
Lemma getUnitData_of_table name au x :
  lookup name (unitsOf au) = Some x ->
  exists v, getUnitData name au = Ok v
            /\ (isObjectPrototypeKey name = false -> exists y, v = Own y).
Proof.
  intros H. unfold getUnitData, get.
  destruct (lookup name builtInUnits) as [y|] eqn:Hb.
  { eexists; split; [reflexivity|eauto]. }
  destruct (isObjectPrototypeKey name) eqn:Hk.
  { eexists; split; [reflexivity|discriminate]. }
  destruct au as [au|]; unfold unitsOf in H.
  - unfold spread in H. rewrite lookup_app, Hb in H.
    destruct (lookup name au) as [y|]; [|discriminate].
    eexists; split; [reflexivity|eauto].
  - congruence.
Qed.

(** X5. [getUnitData] never throws on the unit of a parsed token: what
    the parser accepts, the lookup knows.  The result is a descriptor
    unless the unit is a key inherited from [Object.prototype]. *)
Theorem getUnitData_of_parsed (token : jsstring) (au : option (table Unit))
    (u : ParsedUnit) :
  parseSingleUnit token au = Ok u ->
  exists v, getUnitData (unit u) au = Ok v
            /\ (isObjectPrototypeKey (unit u) = false -> exists x, v = Own x).
Proof.
  intros H. apply parse_inv in H as (Hr & _).
  apply resolve_inv in Hr
    as [(_ & Hu & [Hh|Hus])|[(_ & Hu & _ & Hf)|(_ & Hu & _ & Hf)]].
  - unfold has, get in Hh. rewrite <- Hu in Hh.
    destruct (lookup (unit u) (unitsOf au)) as [x|] eqn:Hx.
    + eapply getUnitData_of_table; eassumption.
    + destruct (isObjectPrototypeKey (unit u)) eqn:Hk; [|discriminate].
      unfold getUnitData, get. rewrite Hk.
      destruct (lookup (unit u) builtInUnits);
        (eexists; split; [reflexivity|discriminate || eauto]).
  - rewrite <- Hu in Hus. unfold getUnitData.
    destruct (match get builtInUnits (unit u) with
              | Some v => Some v
              | None => match au with
                        | Some a => get a (unit u)
                        | None => None
                        end
              end) as [v|] eqn:Hfound.
    + exists v. split; [reflexivity|]. intros Hk.
      unfold get in Hfound. rewrite Hk in Hfound.
      destruct (lookup (unit u) builtInUnits) as [y|].
      * injection Hfound as <-. eauto.
      * destruct au as [a|]; [|discriminate].
        destruct (lookup (unit u) a) as [y|]; [|discriminate].
        injection Hfound as <-. eauto.
    + rewrite Hus, custom_dimensions_constructed. simpl.
      eexists; split; [reflexivity|eauto].
  - apply flag_true in Hf as (x & Hx & _).
    eapply getUnitData_of_table; eassumption.
  - apply flag_true in Hf as (x & Hx & _).
    eapply getUnitData_of_table; eassumption.
Qed.

Lemma getUnitData_of_parsed_witness :
  exists v, getUnitData (js "_pax") None = Ok v
            /\ (isObjectPrototypeKey (js "_pax") = false -> exists x, v = Own x).
Proof.
  apply (@getUnitData_of_parsed (js "_pax^-2") None
           (mkParsedUnit None (js "_pax") (-2))).
  vm_compute. reflexivity.
Defined.

(** X6. When [additionalUnits] redefines a built-in symbol, the parser
    takes the prefix flags of the additional entry (the spread lets it
    win), while [getUnitData] still returns the built-in descriptor. *)
Theorem additional_flags_builtIn_data (name : jsstring) (au : table Unit)
    (builtIn additional : Unit) :
  lookup name builtInUnits = Some builtIn ->
  lookup name au = Some additional ->
  flag prefixable (unitsOf (Some au)) name = prefixable additional
  /\ flag binaryPrefixable (unitsOf (Some au)) name = binaryPrefixable additional
  /\ getUnitData name (Some au) = Ok (Own builtIn).
Proof.
  intros Hb Ha. unfold flag, get, unitsOf, spread.
  rewrite lookup_app, Ha. repeat split.
  unfold getUnitData, get. rewrite Hb. reflexivity.
Qed.

Lemma additional_flags_builtIn_data_witness :
  flag prefixable (unitsOf (Some [(js "lb", metric 1 MASS_DIMENSION)])) (js "lb")
    = prefixable (metric 1 MASS_DIMENSION)
  /\ flag binaryPrefixable (unitsOf (Some [(js "lb", metric 1 MASS_DIMENSION)])) (js "lb")
     = binaryPrefixable (metric 1 MASS_DIMENSION)
  /\ getUnitData (js "lb") (Some [(js "lb", metric 1 MASS_DIMENSION)])
     = Ok (Own (plain 4.5359237e-1 MASS_DIMENSION)).
Proof.
  apply additional_flags_builtIn_data; vm_compute; reflexivity.
Defined.

(** *** The prefix table against the unit table *)

Definition binaryPrefixableKey (entry : jsstring * Unit) : bool :=
  negb (binaryPrefixable (snd entry))
  || str_eqb (fst entry) (js "b") || str_eqb (fst entry) (js "B").

Lemma binaryPrefixable_keys : forallb binaryPrefixableKey builtInUnits = true.
Proof. vm_compute. reflexivity. Qed.

Lemma binaryPrefixable_b_B name :
  flag binaryPrefixable builtInUnits name = true ->
  name = js "b" \/ name = js "B".
Proof.
  intros H. apply flag_true in H as (x & Hx & Hf).
  pose proof (lookup_forallb binaryPrefixableKey builtInUnits name
                binaryPrefixable_keys Hx) as Hk.
  unfold binaryPrefixableKey in Hk. simpl fst in Hk. simpl snd in Hk.
  rewrite Hf in Hk. simpl in Hk.
  apply orb_true_iff in Hk as [Hk|Hk]; apply str_eqb_eq in Hk; auto.
Qed.

(** X7. With the built-in units, a name never has both prefix readings:
    a one-unit prefix on a prefixable unit and a two-unit prefix on a
    binary-prefixable unit exclude each other, so the order in which
    [parseSingleUnit] tries them decides nothing. *)
Theorem prefix_readings_exclusive (name : jsstring) :
  (has (firstUnit name) prefixes
   && flag prefixable builtInUnits (substringFrom name 1))
  && (has (substring name 0 2) prefixes
      && flag binaryPrefixable builtInUnits (substringFrom name 2))
  = false.
Proof.
  destruct (has (firstUnit name) prefixes
            && flag prefixable builtInUnits (substringFrom name 1)) eqn:H1;
    [|reflexivity].
  destruct (has (substring name 0 2) prefixes
            && flag binaryPrefixable builtInUnits (substringFrom name 2)) eqn:H2;
    [|reflexivity].
  exfalso.
  apply andb_true_iff in H1 as [_ Hone]. apply andb_true_iff in H2 as [Htwo Hbin].
  apply firstTwo_prefix in Htwo as [f Hf].
  change 2%Z with (Z.of_nat 2) in Hbin. rewrite substringFrom_skipn in Hbin.
  change 1%Z with (Z.of_nat 1) in Hone. rewrite substringFrom_skipn in Hone.
  apply binaryPrefixable_b_B in Hbin.
  destruct name as [|a [|b rest]].
  - destruct Hbin; discriminate.
  - destruct Hbin; discriminate.
  - cbn [firstn skipn] in Hf, Hbin, Hone.
    destruct (prefix_key_shape _ Hf) as [[c E]|[c E]]; [discriminate E|].
    injection E as -> ->. clear Hf.
    destruct Hbin as [-> | ->]; vm_compute in Hone; discriminate Hone.
Qed.

Definition readsOnlyAsItself (entry : jsstring * Unit) : bool :=
  let name := fst entry in
  negb (startsWithUnderscore name)
  && negb (has (firstUnit name) prefixes
           && flag prefixable builtInUnits (substringFrom name 1))
  && negb (has (substring name 0 2) prefixes
           && flag binaryPrefixable builtInUnits (substringFrom name 2)).

Lemma builtIn_readsOnlyAsItself : forallb readsOnlyAsItself builtInUnits = true.
Proof. vm_compute. reflexivity. Qed.

(** X8. No symbol of the built-in table has a second reading: none starts
    with an underscore and none is a prefix followed by a built-in unit
    that accepts it.  The exact match that [parseSingleUnit] tries first
    therefore hides no prefixed unit. *)
Theorem builtIn_symbol_single_reading (name : jsstring) (u : Unit) :
  lookup name builtInUnits = Some u ->
  startsWithUnderscore name = false
  /\ has (firstUnit name) prefixes
     && flag prefixable builtInUnits (substringFrom name 1) = false
  /\ has (substring name 0 2) prefixes
     && flag binaryPrefixable builtInUnits (substringFrom name 2) = false.
Proof.
  intros H.
  pose proof (lookup_forallb readsOnlyAsItself builtInUnits name
                builtIn_readsOnlyAsItself H) as Hk.
  unfold readsOnlyAsItself in Hk. simpl fst in Hk.
  apply andb_true_iff in Hk as [Hk H3]. apply andb_true_iff in Hk as [H1 H2].
  apply negb_true_iff in H1, H2, H3. auto.
Qed.

Lemma builtIn_symbol_single_reading_witness :
  startsWithUnderscore (js "min") = false
  /\ has (firstUnit (js "min")) prefixes
     && flag prefixable builtInUnits (substringFrom (js "min") 1) = false
  /\ has (substring (js "min") 0 2) prefixes
     && flag binaryPrefixable builtInUnits (substringFrom (js "min") 2) = false.
Proof.
  apply (@builtIn_symbol_single_reading (js "min") (plain 6e+1 TIME_DIMENSION)).
  vm_compute. reflexivity.
Defined.

(** *** Custom units *)

Definition noUnderscoreKey (entry : jsstring * Unit) : bool :=
  negb (startsWithUnderscore (fst entry)).

Lemma builtIn_noUnderscore : forallb noUnderscoreKey builtInUnits = true.
Proof. vm_compute. reflexivity. Qed.

(** The descriptor of the base unit of the custom dimension [name]. *)
Definition customUnit (name : jsstring) : Unit :=
  mkUnit 1 (mkDimensions [0; 0; 0; 0; 0; 0; 0; 0; 1]%Z (Some [name]) 0)
         None false false.

(** X9. The underscore shorthand: for a symbol [_name] that is neither an
    additional unit nor a key inherited from [Object.prototype],
    [getUnitData] builds the base unit of the custom dimension [name]:
    scale 1, exponent 1 in one custom slot called [name], no offset, no
    prefixes.  The constructor of its Dimensions never throws, whatever
    the name. *)
Theorem getUnitData_custom (name : jsstring) (au : option (table Unit)) :
  isObjectPrototypeKey (UNDERSCORE :: name) = false ->
  match au with
  | Some a => lookup (UNDERSCORE :: name) a = None
  | None => True
  end ->
  getUnitData (UNDERSCORE :: name) au = Ok (Own (customUnit name)).
Proof.
  intros Hk Ha. unfold getUnitData, get. rewrite Hk.
  destruct (lookup (UNDERSCORE :: name) builtInUnits) as [x|] eqn:Hb.
  { pose proof (lookup_forallb noUnderscoreKey builtInUnits _
                  builtIn_noUnderscore Hb) as Hu. discriminate. }
  assert (Hfound : match au with
                   | Some a => match lookup (UNDERSCORE :: name) a with
                               | Some v => Some (Own v)
                               | None => None
                               end
                   | None => None
                   end = None).
  { destruct au as [a|]; [rewrite Ha|]; reflexivity. }
  rewrite Hfound.
  change (startsWithUnderscore (UNDERSCORE :: name)) with true. cbv iota.
  change 1%Z with (Z.of_nat 1). rewrite substringFrom_skipn. simpl skipn.
  rewrite custom_dimensions_constructed. reflexivity.
Qed.

Lemma getUnitData_custom_witness :
  getUnitData (UNDERSCORE :: js "pax") (Some [(js "_dir", customUnit (js "x"))])
  = Ok (Own (customUnit (js "pax"))).
Proof.
  apply getUnitData_custom; vm_compute; reflexivity.
Defined.

(** X10. Two custom base units have equal dimensions exactly when they
    have the same name: the exponent vectors coincide, the names tell
    them apart. *)
Theorem customUnit_equalTo (name1 name2 : jsstring) :
  equalTo (d (customUnit name1)) (d (customUnit name2)) = true
  <-> name1 = name2.
Proof.
  rewrite DimMore.equalTo_fields. simpl. split.
  - intros (_ & E & _). now injection E.
  - intros ->. repeat split; reflexivity.
Qed.

(** *** The base SI units *)

Definition prefixFactorOf (p : option jsstring) : option Q :=
  match p with
  | Some x => lookup x prefixes
  | None => Some 1%Q
  end.

(** A preferred unit that is coherent with the SI base: a built-in unit
    without offset whose scale times the factor of its prefix is 1. *)
Definition coherent (p : PreferredUnit) : bool :=
  match lookup (preferredUnit p) builtInUnits, prefixFactorOf (preferredPrefix p) with
  | Some x, Some f =>
      Qeq_bool (f * s x) 1
      && match offset x with None => true | Some _ => false end
  | _, _ => false
  end.

Lemma baseSIUnits_coherent_all : forallb coherent baseSIUnits = true.
Proof. vm_compute. reflexivity. Qed.

(** X11. Every entry of [baseSIUnits] is coherent: it names a built-in
    unit without offset, and the scale of that unit times the factor of
    the entry's prefix is exactly 1 (the kilogram is [k] on [g]:
    1e3 · 1e-3).  A magnitude in SI base form is thus a magnitude in
    these units. *)
Theorem baseSIUnits_coherent (p : PreferredUnit) :
  In p baseSIUnits ->
  exists x f,
    lookup (preferredUnit p) builtInUnits = Some x
    /\ prefixFactorOf (preferredPrefix p) = Some f
    /\ (f * s x == 1)%Q
    /\ offset x = None.
Proof.
  intros H. pose proof baseSIUnits_coherent_all as Hall.
  rewrite forallb_forall in Hall. specialize (Hall p H).
  unfold coherent in Hall.
  destruct (lookup (preferredUnit p) builtInUnits) as [x|]; [|discriminate].
  destruct (prefixFactorOf (preferredPrefix p)) as [f|]; [|discriminate].
  apply andb_true_iff in Hall as [Hs Ho]. apply Qeq_bool_iff in Hs.
  exists x, f. repeat split; try assumption.
  destruct (offset x); [discriminate|reflexivity].
Qed.

Lemma baseSIUnits_coherent_witness :
  exists x f,
    lookup (js "g") builtInUnits = Some x
    /\ prefixFactorOf (Some (js "k")) = Some f
    /\ (f * s x == 1)%Q
    /\ offset x = None.
Proof.
  apply (@baseSIUnits_coherent (mkPreferredUnit (Some (js "k")) (js "g"))).
  left. reflexivity.
Defined.

(** X19. The only error of [getUnitData] is the unknown-unit error of its
    argument, raised for a symbol that no table holds and that does not
    start with an underscore; the constructor of the custom Dimensions
    never makes it fail. *)
Theorem getUnitData_error (name : jsstring) (au : option (table Unit))
    (e : QuantityError) :
  getUnitData name au = Err e ->
  e = UnsupportedUnit name
  /\ startsWithUnderscore name = false
  /\ lookup name builtInUnits = None
  /\ match au with Some a => lookup name a = None | None => True end.
Proof.
  unfold getUnitData, get.
  destruct (lookup name builtInUnits) as [x|]; [discriminate|].
  destruct (isObjectPrototypeKey name); [discriminate|].
  assert (Hcustom : forall found : option (property Unit),
            found = None ->
            match found with
            | Some v => Ok v
            | None =>
                if startsWithUnderscore name
                then dims <- Dim.new [0; 0; 0; 0; 0; 0; 0; 0; 1]%Z
                                     (Some [substringFrom name 1]) 0 ;;
                     Ok (Own (mkUnit 1 dims None false false))
                else Err (UnsupportedUnit name)
            end = Err e ->
            e = UnsupportedUnit name /\ startsWithUnderscore name = false).
  { intros found -> H. destruct (startsWithUnderscore name).
    - rewrite custom_dimensions_constructed in H. discriminate.
    - injection H as <-. auto. }
  destruct au as [a|].
  - destruct (lookup name a) as [x|]; [discriminate|].
    intros H. destruct (Hcustom None eq_refl H) as [-> Hu]. auto.
  - intros H. destruct (Hcustom None eq_refl H) as [-> Hu]. auto.
Qed.

Lemma getUnitData_error_witness :
  UnsupportedUnit (js "furlong") = UnsupportedUnit (js "furlong")
  /\ startsWithUnderscore (js "furlong") = false
  /\ lookup (js "furlong") builtInUnits = None
  /\ True.
Proof.
  apply (@getUnitData_error (js "furlong") None (UnsupportedUnit (js "furlong"))).
  vm_compute. reflexivity.
Defined.

End ParseMore.

(* ================================================================= *)
(** ** Unit strings: failures, separators and the canonical form *)

Module UnitStringMore.

Import Units ParseFacts UnitStringFacts.

(** *** Failures of [parseUnits] *)

Definition slashes (unitStr : jsstring) : nat := count_occ N.eq_dec unitStr SLASH.

Lemma split_length d (t : jsstring) :
  length (split d t) = S (count_occ N.eq_dec t d).
Proof.
  induction t as [|c t IH]; simpl; [reflexivity|].
  destruct (N.eqb_spec c d) as [->|Hne].
  - destruct (N.eq_dec d d); [|congruence]. simpl. now rewrite IH.
  - destruct (N.eq_dec c d); [congruence|].
    pose proof (split_nonempty d t) as Hn.
    destruct (split d t); [congruence|]. exact IH.
Qed.

Lemma parseSingleUnit_error token au e :
  parseSingleUnit token au = Err e ->
  e = InvalidPower token \/ e = UnableToParse token.
Proof.
  rewrite parseSingleUnit_steps.
  destruct (badExponent (exponent token)); [intros E; injection E; auto|].
  destruct (resolve _ _) as [[pre un]|]; [discriminate|].
  intros E; injection E; auto.
Qed.

Lemma mapM_Err {A B} (f : A -> result B) xs e :
  mapM f xs = Err e -> exists x, In x xs /\ f x = Err e.
Proof.
  induction xs as [|x xs IH]; simpl; [discriminate|].
  destruct (f x) as [y|e'] eqn:Hx; simpl.
  - destruct (mapM f xs) as [ys|e'']; simpl; [discriminate|].
    intros E; injection E as ->. destruct IH as (x' & Hin & Hx'); [reflexivity|].
    exists x'. auto.
  - intros E; injection E as ->. exists x. auto.
Qed.

(** A failure while parsing a section names one of its tokens. *)
Lemma section_error unitStr section au e :
  ~ In SLASH section -> incl section unitStr ->
  mapM (fun part => parseSingleUnit part au)
       (splitUnitSeparator (trim section)) = Err e ->
  exists token,
    free isDelimiter token /\ incl token unitStr
    /\ (e = InvalidPower token \/ e = UnableToParse token).
Proof.
  intros Hn Hi H. apply mapM_Err in H as (token & Hin & Herr).
  exists token. split; [|split].
  - destruct (section_tokens section Hn) as [_ Hall].
    rewrite Forall_forall in Hall. now apply Hall.
  - pose proof (splitSeparator_parts false (trim section)) as Hparts.
    rewrite Forall_forall in Hparts. destruct (Hparts token Hin) as [_ Hsub].
    intros c Hc. apply Hi, trim_incl, Hsub, Hc.
  - eapply parseSingleUnit_error, Herr.
Qed.

Lemma parseUnits_error unitStr au e :
  parseUnits unitStr au = Err e ->
  (e = TooManySlashes unitStr /\ 2 <= slashes unitStr)
  \/ (slashes unitStr < 2
      /\ exists token,
           free isDelimiter token /\ incl token unitStr
           /\ (e = InvalidPower token \/ e = UnableToParse token)).
Proof.
  unfold parseUnits, slashes.
  pose proof (split_length SLASH unitStr) as Hlen.
  pose proof (split_parts SLASH unitStr) as Hparts.
  destruct (Nat.ltb_spec 2 (length (split SLASH unitStr))) as [Hmany|Hfew].
  { intros E; injection E as <-. left. split; [reflexivity|lia]. }
  intros H. right. split; [lia|].
  destruct (split SLASH unitStr) as [|numerator rest]; [discriminate|].
  simpl nth in H. inversion Hparts as [|? ? [Hn Hi] Hrest]; subst.
  destruct (mapM _ (splitUnitSeparator (trim numerator))) as [nums|e'] eqn:Hnums.
  - simpl bind in H. destruct rest as [|denominator rest]; [discriminate|].
    simpl nth_error in H. inversion Hrest as [|? ? [Hd Hdi] _]; subst.
    destruct (mapM _ (splitUnitSeparator (trim denominator))) as [dens|e''] eqn:Hdens;
      [discriminate|].
    simpl in H. injection H as <-. eapply section_error; eassumption.
  - simpl in H. injection H as <-. eapply section_error; eassumption.
Qed.

(** X12. [parseUnits] fails with the too-many-slashes error (kind
    InvalidUnitString) exactly when the string holds two or more slashes;
    it then fails before any token is looked at. *)
Theorem too_many_slashes (unitStr : jsstring) (au : option (table Unit)) :
  (parseUnits unitStr au = Err (TooManySlashes unitStr) <-> 2 <= slashes unitStr)
  /\ (failsWith InvalidUnitString (parseUnits unitStr au) <-> 2 <= slashes unitStr).
Proof.
  assert (Hif : 2 <= slashes unitStr ->
                parseUnits unitStr au = Err (TooManySlashes unitStr)).
  { intros H. unfold parseUnits. pose proof (split_length SLASH unitStr) as Hlen.
    fold (slashes unitStr) in Hlen.
    destruct (Nat.ltb_spec 2 (length (split SLASH unitStr))); [reflexivity|lia]. }
  assert (Honly : forall e, parseUnits unitStr au = Err e ->
                            kind e = InvalidUnitString -> 2 <= slashes unitStr).
  { intros e He Hk.
    apply parseUnits_error in He as [[_ H]|(_ & token & _ & _ & [-> | ->])];
      [exact H|discriminate..]. }
  split; split.
  - intros H. eapply Honly; [exact H|reflexivity].
  - exact Hif.
  - intros (e & He & Hk). eapply Honly; eassumption.
  - intros H. exists (TooManySlashes unitStr). split; [now apply Hif|reflexivity].
Qed.

(** X13. Any other failure of [parseUnits] comes from one token of the
    string and names it: the error is the invalid-power or the
    unable-to-parse error of a token that is made of code units of the
    string and holds no white space, no U+22C5 and no slash. *)
Theorem parseUnits_error_token (unitStr : jsstring) (au : option (table Unit))
    (e : QuantityError) :
  parseUnits unitStr au = Err e ->
  e <> TooManySlashes unitStr ->
  exists token,
    free isDelimiter token /\ incl token unitStr
    /\ (e = InvalidPower token \/ e = UnableToParse token).
Proof.
  intros H Hne. apply parseUnits_error in H as [[-> _]|(_ & Htoken)];
    [congruence|exact Htoken].
Qed.

Lemma parseUnits_error_token_witness :
  exists token,
    free isDelimiter token /\ incl token (js "kg m^0/s")
    /\ (InvalidPower (js "m^0") = InvalidPower token
        \/ InvalidPower (js "m^0") = UnableToParse token).
Proof.
  apply (@parseUnits_error_token (js "kg m^0/s") None (InvalidPower (js "m^0"))).
  - vm_compute. reflexivity.
  - discriminate.
Defined.

(** *** Separators and padding *)

(** A run of white space. *)
Definition white (run : jsstring) : Prop :=
  Forall (fun c => isWhiteSpace c = true) run.

(** A string that starts with a code unit that is not white space. *)
Definition startsClean (t : jsstring) : Prop :=
  match t with
  | c :: _ => isWhiteSpace c = false
  | [] => False
  end.

Lemma white_no_slash run : white run -> ~ In SLASH run.
Proof.
  intros H Hin. unfold white in H. rewrite Forall_forall in H.
  apply H in Hin. discriminate.
Qed.

Lemma trimStart_white run t : white run -> trimStart (run ++ t) = trimStart t.
Proof.
  induction 1 as [|c run Hc _ IH]; simpl; [reflexivity|]. now rewrite Hc.
Qed.

Lemma trimStart_clean t : startsClean t -> trimStart t = t.
Proof. destruct t as [|c t]; simpl; [tauto|]. now intros ->. Qed.

Lemma trimStart_app t z :
  trimStart (t ++ z) = match trimStart t with
                       | [] => trimStart z
                       | _ :: _ => trimStart t ++ z
                       end.
Proof.
  induction t as [|c t IH]; simpl; [destruct (trimStart z); reflexivity|].
  destruct (isWhiteSpace c); [exact IH|reflexivity].
Qed.

Lemma white_rev run : white run -> white (rev run).
Proof. unfold white. apply Forall_rev. Qed.

(** White space at either end does not change [trim]. *)
Lemma trim_padding left t right :
  white left -> white right -> trim (left ++ t ++ right) = trim t.
Proof.
  intros Hl Hr. unfold trim. rewrite (trimStart_white _ Hl), trimStart_app.
  destruct (trimStart t) as [|c y] eqn:Ey.
  - pose proof (trimStart_white [] Hr) as E. rewrite app_nil_r in E.
    rewrite E. reflexivity.
  - rewrite rev_app_distr, (trimStart_white _ (white_rev Hr)). reflexivity.
Qed.

Lemma startsClean_app t z : startsClean t -> startsClean (t ++ z).
Proof. destruct t; simpl; tauto. Qed.

Lemma token_clean t :
  t <> [] -> free isWhiteSpace t -> startsClean t /\ startsClean (rev t).
Proof.
  intros Hne Hf. split.
  - destruct t as [|c t]; [congruence|]. apply Hf. now left.
  - destruct (rev t) as [|c r] eqn:E.
    + apply (f_equal (@rev N)) in E. rewrite rev_involutive in E. simpl in E.
      congruence.
    + apply Hf. apply in_rev. rewrite E. now left.
Qed.

(** Tokens glued by a separator: no white space at either end. *)
Lemma join_clean sep tokens :
  tokens <> [] ->
  Forall (fun t => t <> [] /\ free isWhiteSpace t) tokens ->
  startsClean (join sep tokens) /\ startsClean (rev (join sep tokens)).
Proof.
  induction tokens as [|t rest IH]; [congruence|]. intros _ Hall.
  inversion Hall as [|? ? [Hne Hf] Hrest]; subst.
  destruct (token_clean Hne Hf) as [Hs He].
  destruct rest as [|t' rest]; [simpl; auto|].
  change (join sep (t :: t' :: rest)) with (t ++ sep ++ join sep (t' :: rest)).
  split; [now apply startsClean_app|].
  rewrite !rev_app_distr, <- app_assoc. apply startsClean_app.
  apply IH; [discriminate|exact Hrest].
Qed.

Lemma trim_clean t : startsClean t -> startsClean (rev t) -> trim t = t.
Proof.
  intros Hs He. unfold trim.
  rewrite (trimStart_clean t Hs), (trimStart_clean _ He). apply rev_involutive.
Qed.

Lemma splitSeparator_inws t :
  startsClean t -> splitSeparator true t = splitSeparator false t.
Proof. destruct t as [|c t]; simpl; [tauto|]. now intros ->. Qed.

Lemma splitSeparator_run run t :
  white run -> startsClean t ->
  splitSeparator true (run ++ t) = splitSeparator false t.
Proof.
  intros Hw Ht. induction Hw as [|c run Hc _ IH]; simpl.
  - now apply splitSeparator_inws.
  - rewrite Hc. exact IH.
Qed.

Lemma splitSeparator_white_app t run rest :
  free isSeparator t -> run <> [] -> white run -> startsClean rest ->
  splitSeparator false (t ++ run ++ rest) = t :: splitSeparator false rest.
Proof.
  intros Ht Hne Hw Hrest. induction t as [|c t IH].
  - destruct run as [|w run]; [congruence|].
    inversion Hw as [|? ? Hc Hw']; subst. simpl. rewrite Hc.
    now rewrite splitSeparator_run.
  - apply free_cons in Ht as [Hc Ht]. apply isSeparator_false in Hc as [Hws Hdot].
    simpl. rewrite Hws, Hdot, IH by exact Ht. reflexivity.
Qed.

Lemma splitSeparator_join_white run tokens :
  run <> [] -> white run -> tokens <> [] ->
  Forall (fun t => t <> [] /\ free isSeparator t) tokens ->
  splitUnitSeparator (join run tokens) = tokens.
Proof.
  intros Hne Hw. unfold splitUnitSeparator.
  induction tokens as [|t rest IH]; [congruence|]. intros _ Hall.
  inversion Hall as [|? ? [Ht Hf] Hrest]; subst.
  destruct rest as [|t' rest].
  - simpl. now apply splitSeparator_token.
  - change (join run (t :: t' :: rest)) with (t ++ run ++ join run (t' :: rest)).
    rewrite splitSeparator_white_app; try assumption.
    + rewrite IH; [reflexivity|discriminate|exact Hrest].
    + apply join_clean; [discriminate|].
      eapply Forall_impl; [|exact Hrest]. intros x [Hx Hfx].
      split; [exact Hx|now apply separator_white].
Qed.

Lemma bind_Ok {A} (r : result A) : bind r (fun x => Ok x) = r.
Proof. destruct r; reflexivity. Qed.

(** A string without slash is parsed token by token. *)
Lemma parseUnits_tokens unitStr au :
  ~ In SLASH unitStr ->
  parseUnits unitStr au
  = mapM (fun part => parseSingleUnit part au)
         (splitUnitSeparator (trim unitStr)).
Proof.
  intros H. unfold parseUnits. rewrite split_absent by exact H. simpl.
  apply bind_Ok.
Qed.

(** X14. Between units, a run of white space and the dot U+22C5 are the
    same separator: tokens glued by any run of white space parse exactly
    as the same tokens glued by U+22C5, errors included. *)
Theorem separators_equivalent (tokens : list jsstring) (run : jsstring)
    (au : option (table Unit)) :
  tokens <> [] ->
  Forall (fun t => t <> [] /\ free isDelimiter t) tokens ->
  run <> [] -> white run ->
  parseUnits (join run tokens) au = parseUnits (join [DOT] tokens) au.
Proof.
  intros Hne Hall Hrun Hw.
  assert (Hsep : Forall (fun t => t <> [] /\ free isSeparator t) tokens).
  { eapply Forall_impl; [|exact Hall]. intros t [H1 H2].
    split; [exact H1|now apply free_delimiter in H2]. }
  assert (Hws : Forall (fun t => t <> [] /\ free isWhiteSpace t) tokens).
  { eapply Forall_impl; [|exact Hsep]. intros t [H1 H2].
    split; [exact H1|now apply separator_white]. }
  assert (Hslash : forall sep, ~ In SLASH sep -> ~ In SLASH (join sep tokens)).
  { intros sep Hs. apply free_eqb. apply join_free; [now apply free_eqb|].
    eapply Forall_impl; [|exact Hall]. intros t [_ H2].
    apply free_eqb. now apply free_delimiter in H2. }
  rewrite !parseUnits_tokens.
  - destruct (join_clean run Hne Hws) as [H1 H2].
    destruct (join_clean [DOT] Hne Hws) as [H3 H4].
    rewrite (trim_clean _ H1 H2), (trim_clean _ H3 H4).
    rewrite splitSeparator_join_white by assumption.
    rewrite splitSeparator_join; [reflexivity|exact Hne|].
    eapply Forall_impl; [|exact Hsep]. now intros t [_ H].
  - apply Hslash. intros [E|[]]. discriminate.
  - apply Hslash. now apply white_no_slash.
Qed.

Lemma separators_equivalent_witness :
  parseUnits (join (js "  ") [js "kg"; js "m^2"; js "s^-2"]) None
  = parseUnits (join [DOT] [js "kg"; js "m^2"; js "s^-2"]) None.
Proof.
  apply separators_equivalent.
  - discriminate.
  - repeat constructor; try discriminate; intros c Hc; vm_compute in Hc;
      repeat (destruct Hc as [<-|Hc]; [reflexivity|]); destruct Hc.
  - discriminate.
  - repeat constructor.
Defined.

(** X15. White space around the slash and at both ends of a unit string
    is ignored: padding the numerator and the denominator of a quotient
    with white space changes nothing in what [parseUnits] returns. *)
Theorem padding_ignored (numerator denominator p1 p2 p3 p4 : jsstring)
    (au : option (table Unit)) :
  ~ In SLASH numerator -> ~ In SLASH denominator ->
  white p1 -> white p2 -> white p3 -> white p4 ->
  parseUnits ((p1 ++ numerator ++ p2) ++ SLASH :: (p3 ++ denominator ++ p4)) au
  = parseUnits (numerator ++ SLASH :: denominator) au.
Proof.
  intros Hn Hd H1 H2 H3 H4.
  assert (Hn' : ~ In SLASH (p1 ++ numerator ++ p2)).
  { intros Hin. apply in_app_or in Hin as [Hin|Hin];
      [now apply (white_no_slash H1)|].
    apply in_app_or in Hin as [Hin|Hin]; [tauto|now apply (white_no_slash H2)]. }
  assert (Hd' : ~ In SLASH (p3 ++ denominator ++ p4)).
  { intros Hin. apply in_app_or in Hin as [Hin|Hin];
      [now apply (white_no_slash H3)|].
    apply in_app_or in Hin as [Hin|Hin]; [tauto|now apply (white_no_slash H4)]. }
  unfold parseUnits.
  rewrite !split_app by assumption. rewrite !split_absent by assumption.
  cbn [length Nat.ltb Nat.leb nth nth_error].
  rewrite !trim_padding by assumption. reflexivity.
Qed.

Lemma padding_ignored_witness :
  parseUnits ((js " " ++ js "kg m" ++ js "  ") ++ SLASH :: (js " " ++ js "s^2" ++ js " ")) None
  = parseUnits (js "kg m" ++ SLASH :: js "s^2") None.
Proof.
  apply padding_ignored;
    try (repeat constructor);
    vm_compute; intuition discriminate.
Defined.

(** *** The canonical form *)

Lemma filter_twice {A} (f : A -> bool) l : filter f (filter f l) = filter f l.
Proof.
  induction l as [|x l IH]; simpl; [reflexivity|].
  destruct (f x) eqn:E; simpl; [rewrite E, IH|]; auto.
Qed.

Lemma filter_opposite {A} (f : A -> bool) l :
  filter f (filter (fun x => negb (f x)) l) = []
  /\ filter (fun x => negb (f x)) (filter f l) = [].
Proof.
  induction l as [|x l [IH1 IH2]]; simpl; [auto|].
  destruct (f x) eqn:E; simpl; rewrite ?E; simpl; auto.
Qed.

(** Numerators first, then denominators: the sides stay what they were. *)
Lemma sides_of_reordered units :
  numeratorOf (numeratorOf units ++ denominatorOf units) = numeratorOf units
  /\ denominatorOf (numeratorOf units ++ denominatorOf units) = denominatorOf units.
Proof.
  unfold numeratorOf, denominatorOf. rewrite !filter_app.
  destruct (filter_opposite isNumerator units) as [H1 H2].
  rewrite H1, H2, filter_twice, app_nil_r.
  rewrite (filter_twice (fun u => negb (isNumerator u))). auto.
Qed.

Lemma toUnitString_reordered units :
  toUnitString (numeratorOf units ++ denominatorOf units) = toUnitString units.
Proof.
  rewrite !toUnitString_cases.
  destruct (sides_of_reordered units) as [-> ->].
  destruct (denominatorOf units) as [|dn ds] eqn:Ed; [reflexivity|].
  destruct (numeratorOf units) as [|n ns] eqn:En; [|reflexivity].
  simpl app. rewrite <- Ed. unfold denominatorOf.
  fold (numeratorOf units) in En. now rewrite (filter_nil_all _ _ En).
Qed.

(** X16. The formatted string is a fixed point: parse a unit string,
    format the result, parse that and format again, and the same string
    comes out. *)
Theorem canonical_fixed_point (unitStr : jsstring) (au : option (table Unit))
    (l : list ParsedUnit) :
  parseUnits unitStr au = Ok l ->
  exists l', parseUnits (toUnitString l) au = Ok l'
             /\ toUnitString l' = toUnitString l.
Proof.
  intros H. apply parseUnits_wellParsed in H as [Hne Hall].
  exists (numeratorOf l ++ denominatorOf l).
  split; [now apply format_parse|apply toUnitString_reordered].
Qed.

Lemma canonical_fixed_point_witness :
  exists l',
    parseUnits (toUnitString [mkParsedUnit None (js "s") (-1);
                              mkParsedUnit (Some (js "k")) (js "g") 1]) None
    = Ok l'
    /\ toUnitString l'
       = toUnitString [mkParsedUnit None (js "s") (-1);
                       mkParsedUnit (Some (js "k")) (js "g") 1].
Proof.
  apply (@canonical_fixed_point (js "s^-1 kg^1") None).
  vm_compute. reflexivity.
Defined.

Lemma white_not_added : avoidsAdded isWhiteSpace.
Proof.
  intros c Hc. unfold addedChar in Hc.
  apply orb_true_iff in Hc as [Hc|Hc]; [|now apply numeralChar_not_white].
  apply orb_true_iff in Hc as [Hc|Hc].
  - apply orb_true_iff in Hc as [Hc|Hc];
      apply N.eqb_eq in Hc; subst c; reflexivity.
  - apply N.eqb_eq in Hc; subst c; reflexivity.
Qed.

Lemma side_no_slash au f us :
  f = render \/ f = renderSigned ->
  Forall (wellParsed au) us -> count_occ N.eq_dec (join [DOT] (map f us)) SLASH = 0.
Proof.
  intros Hf Hall. apply count_occ_not_In, free_eqb, join_free.
  - apply free_cons; split; [reflexivity|apply free_nil].
  - apply Forall_map. eapply Forall_impl; [|exact Hall]. intros u Hu.
    destruct (render_token Hu) as [H1 H2].
    apply free_eqb. destruct Hf as [-> | ->];
      [now apply free_delimiter in H1|now apply free_delimiter in H2].
Qed.

(** X17. The formatted string of a parsed unit string holds no white
    space, and exactly one slash when positive and negative powers both
    occur, none otherwise. *)
Theorem canonical_shape (unitStr : jsstring) (au : option (table Unit))
    (l : list ParsedUnit) :
  parseUnits unitStr au = Ok l ->
  free isWhiteSpace (toUnitString l)
  /\ slashes (toUnitString l)
     = match numeratorOf l, denominatorOf l with
       | _ :: _, _ :: _ => 1
       | _, _ => 0
       end.
Proof.
  intros H. apply parseUnits_wellParsed in H as [Hne Hall]. split.
  - apply toUnitString_free; [exact white_not_added|].
    eapply Forall_impl; [|exact Hall]. intros u (_ & _ & Hd & _).
    apply separator_white. now apply free_delimiter in Hd.
  - assert (Hn : Forall (wellParsed au) (numeratorOf l)).
    { apply Forall_forall. intros u Hu. apply filter_In in Hu as [Hu _].
      rewrite Forall_forall in Hall. auto. }
    assert (Hd : Forall (wellParsed au) (denominatorOf l)).
    { apply Forall_forall. intros u Hu. apply filter_In in Hu as [Hu _].
      rewrite Forall_forall in Hall. auto. }
    unfold slashes. rewrite toUnitString_cases.
    destruct (denominatorOf l) as [|dn ds].
    + rewrite (@side_no_slash au render) by auto.
      destruct (numeratorOf l); reflexivity.
    + destruct (numeratorOf l) as [|n ns].
      * apply (@side_no_slash au renderSigned); auto.
      * rewrite !count_occ_app, !(@side_no_slash au render) by auto.
        reflexivity.
Qed.

Lemma canonical_shape_witness :
  free isWhiteSpace (toUnitString [mkParsedUnit (Some (js "k")) (js "g") 1;
                                   mkParsedUnit None (js "s") (-2)])
  /\ slashes (toUnitString [mkParsedUnit (Some (js "k")) (js "g") 1;
                            mkParsedUnit None (js "s") (-2)])
     = match numeratorOf [mkParsedUnit (Some (js "k")) (js "g") 1;
                          mkParsedUnit None (js "s") (-2)],
             denominatorOf [mkParsedUnit (Some (js "k")) (js "g") 1;
                            mkParsedUnit None (js "s") (-2)] with
       | _ :: _, _ :: _ => 1
       | _, _ => 0
       end.
Proof.
  apply (@canonical_shape (js " kg  /  s^2") None).
  vm_compute. reflexivity.
Defined.

(** X20. For parsed unit strings the formatted string tells exactly the
    two sides: two parsed lists are written the same if and only if they
    have the same numerator entries and the same denominator entries, in
    the same order on each side; how the two sides were interleaved is
    forgotten. *)
Theorem same_string_same_sides (s1 s2 : jsstring) (au : option (table Unit))
    (l1 l2 : list ParsedUnit) :
  parseUnits s1 au = Ok l1 -> parseUnits s2 au = Ok l2 ->
  (toUnitString l1 = toUnitString l2
   <-> numeratorOf l1 = numeratorOf l2 /\ denominatorOf l1 = denominatorOf l2).
Proof.
  intros H1 H2.
  apply parseUnits_wellParsed in H1 as [Hne1 Hall1].
  apply parseUnits_wellParsed in H2 as [Hne2 Hall2].
  split.
  - intros E. pose proof (format_parse Hne1 Hall1) as P1.
    pose proof (format_parse Hne2 Hall2) as P2.
    rewrite E, P2 in P1. injection P1 as P.
    destruct (sides_of_reordered l1) as [N1 D1].
    destruct (sides_of_reordered l2) as [N2 D2].
    split; [rewrite <- N1, <- N2|rewrite <- D1, <- D2]; now rewrite P.
  - intros [En Ed]. rewrite <- (toUnitString_reordered l1),
      <- (toUnitString_reordered l2), En, Ed. reflexivity.
Qed.

Lemma same_string_same_sides_witness :
  toUnitString [mkParsedUnit None (js "s") (-1); mkParsedUnit None (js "m") 1]
  = toUnitString [mkParsedUnit None (js "m") 1; mkParsedUnit None (js "s") (-1)]
  <-> numeratorOf [mkParsedUnit None (js "s") (-1); mkParsedUnit None (js "m") 1]
      = numeratorOf [mkParsedUnit None (js "m") 1; mkParsedUnit None (js "s") (-1)]
      /\ denominatorOf [mkParsedUnit None (js "s") (-1); mkParsedUnit None (js "m") 1]
         = denominatorOf [mkParsedUnit None (js "m") 1; mkParsedUnit None (js "s") (-1)].
Proof.
  apply (@same_string_same_sides (js "s^-1 m") (js "m/s") None);
    vm_compute; reflexivity.
Defined.

(** *** Empty tokens *)

Lemma mapM_fails {A B} (f : A -> result B) xs x e :
  In x xs -> f x = Err e -> succeeds (mapM f xs) = false.
Proof.
  induction xs as [|y xs IH]; simpl; [tauto|].
  intros [->|Hin] Hx.
  - rewrite Hx. reflexivity.
  - destruct (f y); [|reflexivity]. simpl.
    specialize (IH Hin Hx). destruct (mapM f xs); [discriminate|reflexivity].
Qed.

(** Two dots in a row leave an empty token behind the first token. *)
Lemma double_dot_token b x y :
  In [] (tl (splitSeparator b (x ++ DOT :: DOT :: y))).
Proof.
  revert b. induction x as [|c x IH]; intros b.
  - simpl. destruct b; simpl; now left.
  - simpl. destruct (isWhiteSpace c).
    + destruct b; [apply IH|]. simpl.
      specialize (IH true). destruct (splitSeparator true _); [destruct IH|].
      right. exact IH.
    + destruct (N.eqb c DOT).
      * simpl. specialize (IH false).
        destruct (splitSeparator false _); [destruct IH|]. right. exact IH.
      * specialize (IH false).
        destruct (splitSeparator false _); [destruct IH|]. exact IH.
Qed.

Lemma trimStart_double_dot x y :
  exists x', trimStart (x ++ DOT :: DOT :: y) = x' ++ DOT :: DOT :: y.
Proof.
  rewrite trimStart_app. destruct (trimStart x) as [|c x'].
  - exists []. reflexivity.
  - exists (c :: x'). reflexivity.
Qed.

Lemma trim_double_dot x y :
  exists x' y', trim (x ++ DOT :: DOT :: y) = x' ++ DOT :: DOT :: y'.
Proof.
  unfold trim. destruct (trimStart_double_dot x y) as [x' ->].
  replace (rev (x' ++ DOT :: DOT :: y)) with (rev y ++ DOT :: DOT :: rev x').
  - destruct (trimStart_double_dot (rev y) (rev x')) as [y' ->].
    exists x', (rev y').
    rewrite rev_app_distr. simpl. rewrite rev_involutive, <- !app_assoc.
    reflexivity.
  - rewrite rev_app_distr. simpl. rewrite <- !app_assoc. reflexivity.
Qed.

(** X21. An empty token is not skipped: a string without slash in which
    two dots U+22C5 follow each other fails to parse with the built-in
    units (while a run of several white spaces is one separator), and the
    failure is not of the InvalidUnitString kind. *)
Theorem double_dot_fails (x y : jsstring) :
  ~ In SLASH x -> ~ In SLASH y ->
  exists e, parseUnits (x ++ DOT :: DOT :: y) None = Err e
            /\ kind e <> InvalidUnitString.
Proof.
  intros Hx Hy.
  assert (Hs : ~ In SLASH (x ++ DOT :: DOT :: y)).
  { intros Hin. apply in_app_or in Hin as [Hin|[E|[E|Hin]]];
      try tauto; discriminate. }
  assert (Hfail : succeeds (parseUnits (x ++ DOT :: DOT :: y) None) = false).
  { rewrite parseUnits_tokens by exact Hs.
    destruct (trim_double_dot x y) as (x' & y' & ->).
    apply mapM_fails with (x := []) (e := UnableToParse []).
    - pose proof (double_dot_token false x' y') as Hin.
      unfold splitUnitSeparator.
      destruct (splitSeparator false _); [destruct Hin|]. right. exact Hin.
    - exact parseSingleUnit_empty. }
  destruct (parseUnits (x ++ DOT :: DOT :: y) None) as [l|e] eqn:E;
    [discriminate|].
  exists e. split; [reflexivity|].
  apply parseUnits_error in E as [[_ Hmany]|(_ & token & _ & _ & [-> | ->])];
    [|discriminate..].
  unfold slashes in Hmany.
  rewrite (proj1 (count_occ_not_In N.eq_dec _ _) Hs) in Hmany. lia.
Qed.

Lemma double_dot_fails_witness :
  exists e, parseUnits (js "kg" ++ DOT :: DOT :: js "m") None = Err e
            /\ kind e <> InvalidUnitString.
Proof.
  apply double_dot_fails; vm_compute; intuition discriminate.
Defined.

End UnitStringMore.

(* ================================================================= *)
(** ** The tolerance of the tests *)

Module ToleranceFacts.

(** X18. [assertAlmostEquals] with its default tolerance,
    [expected * 1e-7]: for a positive expected value it accepts the
    values within that relative distance; for an expected value that is
    zero or negative the tolerance is not positive, and only a value
    equal to the expected one passes. *)
Theorem assertAlmostEquals_default (actual expected : Q) :
  ((expected <= 0)%Q ->
   (assertAlmostEquals actual expected = true <-> (actual == expected)%Q))
  /\ ((0 < expected)%Q ->
      (assertAlmostEquals actual expected = true
       <-> (Qabs (expected - actual) <= expected * 1e-7)%Q)).
Proof.
  unfold assertAlmostEquals.
  rewrite orb_true_iff, Qeq_bool_iff, Qle_bool_iff.
  assert (Hzero : (actual == expected)%Q -> (Qabs (expected - actual) == 0)%Q).
  { intros ->. setoid_replace (expected - expected)%Q with 0%Q by ring.
    reflexivity. }
  split; intros He; split.
  - intros [H|H]; [exact H|].
    pose proof (Qabs_nonneg (expected - actual)) as Hn.
    assert (Hle : (expected * 1e-7 <= 0)%Q).
    { setoid_replace 0%Q with (0 * 1e-7)%Q by ring.
      apply Qmult_le_compat_r; [exact He|discriminate]. }
    assert (Habs : (Qabs (expected - actual) == 0)%Q).
    { apply Qle_antisym; [|exact Hn]. eapply Qle_trans; eassumption. }
    revert Habs. apply Qabs_case; intros _ Habs.
    + setoid_replace actual with (expected - (expected - actual))%Q by ring.
      rewrite Habs. ring.
    + setoid_replace actual with (expected + - (expected - actual))%Q by ring.
      rewrite Habs. ring.
  - intros H. left. exact H.
  - intros [H|H]; [|exact H].
    rewrite (Hzero H).
    setoid_replace 0%Q with (0 * 1e-7)%Q by ring.
    apply Qmult_le_compat_r; [now apply Qlt_le_weak|discriminate].
  - intros H. right. exact H.
Qed.

Lemma assertAlmostEquals_default_witness :
  assertAlmostEquals (-273.15) (-273.15) = true <-> (-273.15 == -273.15)%Q.
Proof.
  apply (proj1 (assertAlmostEquals_default (-273.15) (-273.15))).
  discriminate.
Defined.

End ToleranceFacts.
